(** * Conference-program extraction: PDF spans to spreadsheet rows

    A shallow embedding of [main.py]: the extractor (a generator over the
    text blocks of a PDF), the merger and the spreadsheet writer, followed
    by the properties of the program's specification.

    Python objects that are mutated while shared (the article dictionaries
    yielded by the extractor and updated in place by extractor and merger)
    live in an explicit heap and are passed around by reference.

    A Python string is a sequence of characters (code points); a string of
    the model is its UTF-8 encoding.  Equality, concatenation, emptiness
    and a prefix of ASCII characters are the same on both sides; a
    character is a byte that is no continuation byte together with the
    continuation bytes that follow it, and slices count characters. *)

From Stdlib Require Import QArith.
From stdpp Require Import gmap strings list fin_maps.

(** ** Strings and truthiness *)

(** [bool(s)] of a Python string: true unless empty. *)
Definition truthy_str (s : string) : bool :=
  match s with
  | EmptyString => false
  | String _ _ => true
  end.

(** [bool(l)] of a Python list: true unless empty. *)
Definition truthy_list {A} (l : list A) : bool :=
  match l with
  | [] => false
  | _ :: _ => true
  end.

(** [s.startswith(",")] *)
Definition startswith_comma (s : string) : bool :=
  String.prefix "," s.

(** A byte 10xxxxxx: it continues the character before it. *)
Definition is_continuation (c : Ascii.ascii) : bool :=
  match c with
  | Ascii.Ascii _ _ _ _ _ _ b6 b7 => b7 && negb b6
  end.

(** The string without the continuation bytes at its start. *)
Fixpoint drop_continuation (s : string) : string :=
  match s with
  | String c s' => if is_continuation c then drop_continuation s' else s
  | EmptyString => EmptyString
  end.

(** [s[n:]] for [0 <= n]: the string without its first [n] characters,
    empty when it has fewer. *)
Fixpoint slice_from (n : nat) (s : string) : string :=
  match n with
  | O => s
  | S n' =>
      match s with
      | String _ s' => slice_from n' (drop_continuation s')
      | EmptyString => EmptyString
      end
  end.

(** [s[:n]] for [0 <= n]: the first [n] characters of the string, all of
    it when it has fewer. *)
Fixpoint take_chars (n : N) (s : string) : string :=
  match s with
  | String c s' =>
      if is_continuation c then String c (take_chars n s')
      else if (n =? 0)%N then EmptyString
      else String c (take_chars (n - 1) s')
  | EmptyString => EmptyString
  end.

(** [len(s)]: the number of characters. *)
Fixpoint char_count (s : string) : N :=
  match s with
  | String c s' =>
      if is_continuation c then char_count s' else (1 + char_count s')%N
  | EmptyString => 0%N
  end.

(** [sep.join(l)] *)
Fixpoint join (sep : string) (l : list string) : string :=
  match l with
  | [] => EmptyString
  | [x] => x
  | x :: l' => x +:+ sep +:+ join sep l'
  end.

(** ** Constants *)

(** Font sizes are Python floats; every finite float is a rational and
    [==] on finite floats is equality of those rationals, so sizes are
    modelled in [Q] and compared with [Qeq_bool]. *)
Definition FONT_SIZE_PARAGRAPH : Q := 9.5.
Definition FONT_SIZE_TITLE : Q := 9.
Definition FONT_SIZE_AUTHORS : Q := 9.
Definition FONT_SIZE_AFFILIATIONS : Q := 8.
Definition FONT_SIZE_ABSTRACT : Q := 9.134002685546875.

Definition HEADER_BACKGROUND_COLOR : string := "749BFF".

(** ** Data model *)

(** The dictionary built for every block. *)
Record article := Article {
  authors : list string;
  affiliations : list string;
  session : string;
  title : string;
  abstract : string
}.

Definition set_authors (v : list string) (a : article) : article :=
  Article v (affiliations a) (session a) (title a) (abstract a).
Definition set_affiliations (v : list string) (a : article) : article :=
  Article (authors a) v (session a) (title a) (abstract a).
Definition set_session (v : string) (a : article) : article :=
  Article (authors a) (affiliations a) v (title a) (abstract a).
Definition set_title (v : string) (a : article) : article :=
  Article (authors a) (affiliations a) (session a) v (abstract a).
Definition set_abstract (v : string) (a : article) : article :=
  Article (authors a) (affiliations a) (session a) (title a) v.

(** The literal of lines 40-46. *)
Definition new_article : article := Article [] [] EmptyString EmptyString EmptyString.

Global Instance article_inhabited : Inhabited article := populate new_article.

Global Instance article_eq_dec : EqDecision article.
Proof. solve_decision. Defined.

(** What PyMuPDF's [page.get_text("dict")] reports. *)
Record span := Span {
  span_font : string;
  span_size : Q;
  span_text : string
}.

Record line := Line { line_spans : list span }.

(** A block has a ["type"] (0 for text) and, for text blocks, ["lines"];
    image blocks carry no ["lines"] key. *)
Record block := Block {
  block_type : Z;
  block_lines : option (list line)
}.

Definition page := list block.
Definition pdf := list page.

(** ** The heap of article dictionaries *)

(** A reference is the position of the dictionary in the heap; a new
    dictionary is put at the end.  Python references never dangle; for a
    position outside the heap a read gives [new_article] and a write does
    nothing. *)
Abbreviation ref := nat.
Abbreviation heap := (list article).

Definition alloc (h : heap) (a : article) : heap * ref := (h ++ [a], length h).

(** [d[k]] for a dictionary reference [d]: read the whole record, then the
    field. *)
Definition deref (h : heap) (r : ref) : article := h !!! r.

(** [d[k] = v]: a field of the referenced dictionary is replaced in place. *)
Definition update (h : heap) (r : ref) (f : article → article) : heap :=
  <[r := f (deref h r)]> h.

(** ** Iteration

    Every loop of the program runs its body to the end for each element
    ([break] and [return] do not occur in a loop body), so an iterable is
    modelled by its [for] loop: given the loop body, a function from the
    heap, the loop's own variables and the current element, it runs the
    body on each element in turn.  [None] stands for an exception raised
    while the next element is produced; it ends the program.  A generator
    is such an iterable whose own code runs between two runs of the body,
    on the same heap. *)
Definition loop_body (T : Type) : Type := heap → T → ref → heap * T.
Definition iterable : Type :=
  ∀ T : Type, loop_body T → heap → T → option (heap * T).

(** A list of references, iterated in order. *)
Definition iter_list (l : list ref) : iterable :=
  λ T body h t, Some (fold_left (λ st r, body st.1 st.2 r) l (h, t)).

(** The loop body that appends each element to a list. *)
Definition collect : loop_body (list ref) := λ h acc r, (h, acc ++ [r]).

(** [list(it)]: the references produced, in order. *)
Definition to_list (it : iterable) (h : heap) : option (heap * list ref) :=
  it (list ref) collect h [].

(** ** Extractor *)

(** Lines 50-69: one span is added to the article under construction. *)
Definition add_span (current_article : article) (sp : span) : article :=
  let is_paragraph :=
    String.eqb (span_font sp) "TimesNewRomanPS-BoldItal"
    && Qeq_bool (span_size sp) FONT_SIZE_PARAGRAPH in
  let is_title :=
    String.eqb (span_font sp) "TimesNewRomanPS-BoldMT"
    && Qeq_bool (span_size sp) FONT_SIZE_TITLE in
  let is_authors :=
    String.eqb (span_font sp) "TimesNewRomanPS-ItalicMT"
    && Qeq_bool (span_size sp) FONT_SIZE_AUTHORS in
  let is_affiliations :=
    String.eqb (span_font sp) "TimesNewRomanPS-ItalicMT"
    && Qeq_bool (span_size sp) FONT_SIZE_AFFILIATIONS in
  let is_abstract := Qeq_bool (span_size sp) FONT_SIZE_ABSTRACT in
  let text_pattern := span_text sp in
  if is_paragraph then
    set_session (session current_article +:+ text_pattern) current_article
  else if is_title then
    set_title (title current_article +:+ text_pattern) current_article
  else if is_authors then
    set_authors (authors current_article ++ [text_pattern]) current_article
  else if is_affiliations then
    set_affiliations (affiliations current_article ++ [text_pattern])
      current_article
  else if is_abstract then
    set_abstract (abstract current_article +:+ text_pattern) current_article
  else current_article.

(** Lines 48-49: the spans of a line, the lines of a block. *)
Definition add_line (current_article : article) (ln : line) : article :=
  fold_left add_span (line_spans ln) current_article.

(** Lines 40-69.  The dictionary is not reachable from anywhere else while
    it is filled, so it is built as a value and put on the heap after. *)
Definition read_block (lines : list line) : article :=
  fold_left add_line lines new_article.

(** The condition of lines 72-73. *)
Definition has_content (a : article) : bool :=
  truthy_str (session a) || truthy_str (title a) || truthy_list (authors a)
  || truthy_list (affiliations a) || truthy_str (abstract a).

(** Lines 76-78: three updates in place of the previous article. *)
Definition merge_continuation (h : heap) (previous_article current_article : ref)
    : heap :=
  let h := update h previous_article
    (λ a, set_title (title a +:+ title (deref h current_article)) a) in
  let h := update h previous_article
    (λ a, set_affiliations
            (affiliations a ++ affiliations (deref h current_article)) a) in
  update h previous_article
    (λ a, set_abstract (abstract a +:+ abstract (deref h current_article)) a).

(** [file.page_count] *)
Definition page_count (file : pdf) : Z := Z.of_nat (length file).

(** [file.load_page(n)] for [n < page_count]: as PyMuPDF documents it, a
    negative number counts from the end of the document; an empty document
    has no page to load. *)
Definition load_page (file : pdf) (page_number : Z) : option page :=
  if (page_count file =? 0)%Z then None
  else file !! Z.to_nat (page_number `mod` page_count file).

Section Extractor.
Context {T : Type} (body : loop_body T).

(** State of the running generator together with its consumer: the heap,
    the consumer's loop variables and [previous_article]. *)
Definition gen_state : Type := heap * T * option ref.

(** [yield current_article] followed by line 82. *)
Definition yield_article (h : heap) (t : T) (current_article : ref)
    : option gen_state :=
  let '(h, t) := body h t current_article in
  Some (h, t, Some current_article).

(** Lines 39-82, one block. *)
Definition extract_block (st : gen_state) (article : block)
    : option gen_state :=
  let '(h, t, previous_article) := st in
  match block_lines article with
  | None => None
  | Some lines =>
    let '(h, current_article) := alloc h (read_block lines) in
    if (block_type article =? 0)%Z then
      if has_content (deref h current_article) then
        if negb (truthy_str (session (deref h current_article))) then
          match previous_article with
          | Some previous_article =>
              let h := merge_continuation h previous_article current_article in
              yield_article h t previous_article
          | None => yield_article h t current_article
          end
        else yield_article h t current_article
      else Some (h, t, Some current_article)
    else Some (h, t, Some current_article)
  end.

(** Line 39: the blocks of a page. *)
Fixpoint extract_blocks (st : gen_state) (text_blocks : list block)
    : option gen_state :=
  match text_blocks with
  | [] => Some st
  | article :: rest =>
      match extract_block st article with
      | Some st' => extract_blocks st' rest
      | None => None
      end
  end.

(** Lines 35-37. *)
Fixpoint extract_pages (file : pdf) (st : gen_state) (page_numbers : list Z)
    : option gen_state :=
  match page_numbers with
  | [] => Some st
  | page_number :: rest =>
      match load_page file page_number with
      | Some text_blocks =>
          match extract_blocks st text_blocks with
          | Some st' => extract_pages file st' rest
          | None => None
          end
      | None => None
      end
  end.
End Extractor.

(** [range(lo, hi)] *)
Definition range (lo hi : Z) : list Z :=
  (λ i : nat, (lo + Z.of_nat i)%Z) <$> seq 0 (Z.to_nat (hi - lo)).

(** The generator of lines 21-82. *)
Definition extract_information_from_pdf (file : pdf) (start_page : Z)
    : iterable :=
  λ T body h t,
    match extract_pages body file (h, t, None)
            (range (start_page - 1) (page_count file)) with
    | Some (h, t, _) => Some (h, t)
    | None => None
    end.

(** ** Merger *)

(** Loop variables of [merge_information_blocks]. *)
Definition merge_state : Type := list ref * option ref.

(** Lines 99-107.  A dictionary with keys is true, so [not current_block]
    holds exactly while [current_block] is [None]. *)
Definition merge_block : loop_body merge_state :=
  λ h st block,
    let '(merged_blocks, current_block) := st in
    match current_block with
    | None => (h, (merged_blocks, Some block))
    | Some current_block =>
        if truthy_str (session (deref h block)) then
          (h, (merged_blocks ++ [current_block], Some block))
        else
          let h := update h current_block
            (λ a, set_title (title a +:+ title (deref h block)) a) in
          let h := update h current_block
            (λ a, set_affiliations
                    (affiliations a ++ affiliations (deref h block)) a) in
          let h := update h current_block
            (λ a, set_abstract (abstract a +:+ abstract (deref h block)) a) in
          (h, (merged_blocks, Some current_block))
    end.

(** Lines 95-112. *)
Definition merge_information_blocks (blocks : iterable) (h : heap)
    : option (heap * list ref) :=
  match blocks merge_state merge_block h ([], None) with
  | Some (h, (merged_blocks, current_block)) =>
      Some (h, match current_block with
               | Some current_block => merged_blocks ++ [current_block]
               | None => merged_blocks
               end)
  | None => None
  end.

(** ** Spreadsheet *)

(** A cell of the active sheet: its value and its fill colour.  The
    program writes strings only. *)
Record cell := Cell {
  value : option string;
  fill : option string
}.

(** The active sheet of a workbook: the cells that exist, by (row, column),
    both counted from 1 as openpyxl does.  Saving a workbook and loading it
    again is taken to give the same sheet back. *)
Abbreviation sheet := (gmap (nat * nat) cell).

(** [sheet.max_row]: the largest row that has a cell, 1 for a sheet
    without cells. *)
Definition max_row (sh : sheet) : nat :=
  map_fold (λ (k : nat * nat) (_ : cell) (m : nat), k.1 `max` m) 1 sh.

(** The characters openpyxl refuses in a cell: the control characters 0
    to 8, 11, 12 and 14 to 31. *)
Definition illegal_character (c : Ascii.ascii) : bool :=
  let n := Ascii.N_of_ascii c in
  (n <=? 8)%N || ((11 <=? n)%N && (n <=? 12)%N)
  || ((14 <=? n)%N && (n <=? 31)%N).

Fixpoint has_illegal_character (s : string) : bool :=
  match s with
  | String c s' => illegal_character c || has_illegal_character s'
  | EmptyString => false
  end.

(** The longest string a cell keeps. *)
Definition CELL_LIMIT : N := 32767.

(** What openpyxl does with a string assigned to a cell: it cuts the
    string to 32767 characters and then raises [IllegalCharacterError]
    ([None]) when a control character is left in it. *)
Definition check_string (v : string) : option string :=
  let v := take_chars CELL_LIMIT v in
  if has_illegal_character v then None else Some v.

(** [sheet.cell(row=r, column=c).value = v]: the cell is created when it
    does not exist, and the value goes through [check_string]. *)
Definition set_value (sh : sheet) (r c : nat) (v : string) : option sheet :=
  match check_string v with
  | Some v => Some (<[(r, c) := Cell (Some v) (sh !! (r, c) ≫= fill)]> sh)
  | None => None
  end.

(** [sheet.cell(row=r, column=c).fill = f] *)
Definition set_fill (sh : sheet) (r c : nat) (f : string) : sheet :=
  <[(r, c) := Cell (sh !! (r, c) ≫= value) (Some f)]> sh.

(** The value read back from a cell. *)
Definition cell_value (sh : sheet) (r c : nat) : option string :=
  sh !! (r, c) ≫= value.

(** Line 17-18: a solid fill is identified by its colour. *)
Definition create_colored_header_style (color : string) : string := color.

(** Lines 167-174: the six assignments to the new sheet. *)
Definition header_cells : option sheet :=
  let sheet : sheet := ∅ in
  sheet ← set_value sheet 1 1 "Name (incl, titles if any mentioned";
  sheet ← set_value sheet 1 2 "Affiliations";
  sheet ← set_value sheet 1 3 "Session name";
  sheet ← set_value sheet 1 4 "Persons Location";
  sheet ← set_value sheet 1 5 "Topic Title";
  sheet ← set_value sheet 1 6 "Presentation Abstract";
  Some sheet.

(** Lines 160-175: the content of the file that is created.  The six
    headers are short and without control character, so no assignment
    raises (see [header_cells_written]). *)
Definition create_excel_file_with_headers : sheet := default ∅ header_cells.

(** ** Writer *)

(** A [for] loop whose body can raise: the body runs on each element in
    turn, until it raises ([None]). *)
Fixpoint for_each {A St : Type} (body : St → A → option St) (l : list A)
    (st : St) : option St :=
  match l with
  | [] => Some st
  | x :: l' =>
      match body st x with
      | Some st' => for_each body l' st'
      | None => None
      end
  end.

(** A Python tuple of strings is a list of strings; [existing_authors] is
    a set of tuples. *)
Definition write_state : Type := gset (list string) * sheet.

(** Lines 142-155: one author of a block; [None] when a cell assignment
    raises. *)
Definition save_author (session title abstract : string)
    (affiliations : list string) (st : write_state) (author : string)
    : option write_state :=
  let '(existing_authors, sheet) := st in
  let author :=
    if startswith_comma author then slice_from 2 author else author in
  let author_tuple := [session; author] in
  if bool_decide (author_tuple ∈ existing_authors) then Some st
  else
    let existing_authors := {[author_tuple]} ∪ existing_authors in
    let row := max_row sheet + 1 in
    sheet ← set_value sheet row 1 author;
    sheet ← set_value sheet row 2 (join ", " affiliations);
    sheet ← set_value sheet row 3 session;
    sheet ← set_value sheet row 4 EmptyString;
    sheet ← set_value sheet row 5 title;
    sheet ← set_value sheet row 6 abstract;
    Some (existing_authors, sheet).

(** The condition of line 138; [tuple(authors)] is the list itself. *)
Definition already_saved (existing_authors : gset (list string))
    (block : article) : bool :=
  truthy_str (session block) && bool_decide (authors block ∈ existing_authors).

(** Lines 132-155: one block. *)
Definition save_block (st : write_state) (block : article)
    : option write_state :=
  if already_saved st.1 block then Some st
  else
    for_each
      (save_author (session block) (title block) (abstract block)
                   (affiliations block))
      (authors block) st.

(** Lines 123-124 and 128-129: the sheet the writer starts from.  The file
    at [file_path] is [None] when it does not exist; it is then created
    with the headers. *)
Definition loaded (file : option sheet) : sheet :=
  match file with
  | None => create_excel_file_with_headers
  | Some f => f
  end.

(** Lines 126-155: the workbook that reaches [workbook.save] in line 157,
    [None] when a cell assignment raised before.  The writer only reads
    the dictionaries, so it takes their values. *)
Definition written_workbook (blocks : list article) (file : option sheet)
    : option sheet :=
  let existing_authors : gset (list string) := ∅ in
  let sheet := loaded file in
  match for_each save_block blocks (existing_authors, sheet) with
  | Some st => Some st.2
  | None => None
  end.

(** Lines 123-157: the file at [file_path] after the call.  It is the
    workbook saved in line 157; when a cell assignment raised, nothing is
    saved and the file is the one the call loaded (the one created with
    the headers when there was none). *)
Definition save_to_excel_file (blocks : list article) (file : option sheet)
    : sheet :=
  default (loaded file) (written_workbook blocks file).

(** ** Entry point *)

(** Lines 183-199 for a given start page: [book] is the document at
    [pdf_file], [result] the file at [excel_file] ([None] when absent).
    The result is the spreadsheet file the program leaves when it runs to
    its end, [None] when an exception ended it before. *)
Definition main_from (start_page : Z) (book : pdf) (result : option sheet)
    : option sheet :=
  let pdf_information := extract_information_from_pdf book start_page in
  match merge_information_blocks pdf_information [] with
  | None => None
  | Some (h, merged_information_blocks) =>
      let blocks := deref h <$> merged_information_blocks in
      match written_workbook blocks result with
      | None => None
      | Some file =>
          (* lines 187-188 do nothing: the first call has left a file *)
          let sheet :=
            fold_left
              (λ sheet col,
                 set_fill sheet 1 col
                   (create_colored_header_style HEADER_BACKGROUND_COLOR))
              (seq 1 6) file in
          written_workbook blocks (Some sheet)
      end
  end.

(** Line 181. *)
Definition start_page : Z := 44.

(** Lines 178-199. *)
Definition main : pdf → option sheet → option sheet := main_from start_page.

(** * Vocabulary of the properties *)

(** Rows below the header row. *)
Definition data_rows (sh : sheet) : nat := max_row sh - 1.

(** The merger over a list of references, as one left fold. *)
Definition merge_loop (blocks : list ref) (h : heap) (st : merge_state)
    : heap * merge_state :=
  fold_left (λ st r, merge_block st.1 st.2 r) blocks (h, st).

(** The sequence of blocks opened so far, the open one last. *)
Definition opened (st : merge_state) : list ref :=
  st.1 ++ match st.2 with Some c => [c] | None => [] end.

(** Loop invariant: nothing is collected before a block is open, and
    every block opened after the first has a session. *)
Definition merge_inv (h : heap) (st : merge_state) : Prop :=
  (st.2 = None → st.1 = []) ∧
  Forall (λ r, session (deref h r) ≠ EmptyString) (tail (opened st)).

(** The strings of a list, one after the other. *)
Definition concat_str (l : list string) : string :=
  foldr String.append EmptyString l.

(** The records of an input with a session. *)
Definition sessions_in (h : heap) (blocks : list ref) : nat :=
  length (filter (λ r, session (deref h r) ≠ EmptyString) blocks).

(** The records of an input that open a block: the first one, and every
    later one with a session. *)
Definition block_starts (h : heap) (blocks : list ref) : nat :=
  match blocks with
  | [] => 0
  | _ :: rest => S (sessions_in h rest)
  end.

(** A record that opens a block together with the run of records that
    follow it: titles and abstracts concatenated, affiliations extended;
    session and authors are those of the opening record. *)
Definition merged_record (start : article) (run : list article) : article :=
  Article (authors start)
          (affiliations start ++ mjoin (affiliations <$> run))
          (session start)
          (title start +:+ concat_str (title <$> run))
          (abstract start +:+ concat_str (abstract <$> run)).

(** The input cut into groups, each an opening record and its run. *)
Definition ungroup (groups : list (ref * list ref)) : list ref :=
  mjoin ((λ g, g.1 :: g.2) <$> groups).

(** One step of lines 105-107. *)
Definition absorb (a b : article) : article :=
  Article (authors a) (affiliations a ++ affiliations b) (session a)
          (title a +:+ title b) (abstract a +:+ abstract b).

(** Every input is cut into such groups in one way: a new group starts at
    the first record and at every later record with a session. *)
Fixpoint group_runs (h : heap) (blocks : list ref) : list (ref * list ref) :=
  match blocks with
  | [] => []
  | b :: rest =>
      match group_runs h rest with
      | [] => [(b, [])]
      | (hd, run) :: groups =>
          if truthy_str (session (deref h hd))
          then (b, []) :: (hd, run) :: groups
          else (b, hd :: run) :: groups
      end
  end.

(** Three distinct records, the second without session. *)
Definition merge_sample : heap :=
  [Article ["A"] ["U1"] "S1" "T1" "X1";
   Article [] ["U2"] EmptyString "T2" "X2";
   Article ["B"] [] "S2" "T3" EmptyString].

(** The five fields a span can go to. *)
Inductive role := SessionLabel | Title | Authors | Affiliations | Abstract.

(** The rule of each role: font name and size for four of them, the size
    alone for the abstract. *)
Definition rule (r : role) (sp : span) : Prop :=
  match r with
  | SessionLabel =>
      span_font sp = "TimesNewRomanPS-BoldItal"
      ∧ Qeq (span_size sp) FONT_SIZE_PARAGRAPH
  | Title =>
      span_font sp = "TimesNewRomanPS-BoldMT"
      ∧ Qeq (span_size sp) FONT_SIZE_TITLE
  | Authors =>
      span_font sp = "TimesNewRomanPS-ItalicMT"
      ∧ Qeq (span_size sp) FONT_SIZE_AUTHORS
  | Affiliations =>
      span_font sp = "TimesNewRomanPS-ItalicMT"
      ∧ Qeq (span_size sp) FONT_SIZE_AFFILIATIONS
  | Abstract => Qeq (span_size sp) FONT_SIZE_ABSTRACT
  end.

(** What a role does with the text of its span. *)
Definition assign (r : role) (text : string) (a : article) : article :=
  match r with
  | SessionLabel => set_session (session a +:+ text) a
  | Title => set_title (title a +:+ text) a
  | Authors => set_authors (authors a ++ [text]) a
  | Affiliations => set_affiliations (affiliations a ++ [text]) a
  | Abstract => set_abstract (abstract a +:+ text) a
  end.

(** The font names the program compares with. *)
Definition known_fonts : list string :=
  ["TimesNewRomanPS-BoldItal"; "TimesNewRomanPS-BoldMT";
   "TimesNewRomanPS-ItalicMT"].

(** Every span has a role or none: the rules can be decided. *)
Global Instance rule_dec (r : role) (sp : span) : Decision (rule r sp).
Proof.
  destruct r; simpl; try apply and_dec; try apply _; apply Qeq_dec.
Defined.

(** [previous_article] refers to a dictionary of the heap. *)
Definition previous_allocated {T} (st : gen_state (T:=T)) : Prop :=
  ∀ p, st.2 = Some p → p < length st.1.1.

(** A loop body does not take dictionaries away. *)
Definition keeps_heap {T} (body : loop_body T) : Prop :=
  ∀ h t r, length h ≤ length (body h t r).1.

(** Invariant of the merger fed by the generator: the merger's invariant,
    and every reference either of them holds is allocated. *)
Definition pipeline_inv (st : gen_state (T:=merge_state)) : Prop :=
  merge_inv st.1.1 st.1.2
  ∧ Forall (λ r, r < length st.1.1) (opened st.1.2)
  ∧ previous_allocated st.

(** A labelled talk, a text block without any recognised span (a page
    number, say), and a block that continues the title. *)
Definition talk_block : block :=
  Block 0 (Some [Line [Span "TimesNewRomanPS-BoldItal" 9.5 "S";
                       Span "TimesNewRomanPS-BoldMT" 9 "T"]]).
Definition unrecognised_block : block :=
  Block 0 (Some [Line [Span "Helvetica" 12 "7"]]).
Definition title_block : block :=
  Block 0 (Some [Line [Span "TimesNewRomanPS-BoldMT" 9 "U"]]).

(** The name under which an author is looked up and written. *)
Definition written_name (author : string) : string :=
  if startswith_comma author then slice_from 2 author else author.

(** The six assignments of lines 149-155, [None] when one of them
    raises. *)
Definition write_row (sh : sheet) (row : nat) (author : string)
    (affiliations : list string) (session title abstract : string)
    : option sheet :=
  sheet ← set_value sh row 1 author;
  sheet ← set_value sheet row 2 (join ", " affiliations);
  sheet ← set_value sheet row 3 session;
  sheet ← set_value sheet row 4 EmptyString;
  sheet ← set_value sheet row 5 title;
  set_value sheet row 6 abstract.

(** What a cell keeps of a string that it accepts. *)
Definition stored (v : string) : option string :=
  Some (take_chars CELL_LIMIT v).

(** A string that a cell keeps whole. *)
Definition short (v : string) : Prop := (char_count v ≤ CELL_LIMIT)%N.

(** A block whose session and author names, the leading comma taken off,
    are kept whole by a cell. *)
Definition short_block (b : article) : Prop :=
  short (session b) ∧ Forall (λ a, short (written_name a)) (authors b).

(** A value the cell assignment accepts: no control character among its
    first 32767 characters. *)
Definition legal (v : string) : Prop :=
  has_illegal_character (take_chars CELL_LIMIT v) = false.

(** One character: a byte that is no continuation byte, followed by
    continuation bytes only. *)
Definition is_char (ch : string) : Prop :=
  ∃ c rest, ch = String c rest ∧ is_continuation c = false
            ∧ drop_continuation rest = EmptyString.

(** A string that does not start in the middle of a character. *)
Definition at_boundary (s : string) : Prop := drop_continuation s = s.

(** The header row, cell by cell. *)
Definition header_sheet : sheet :=
  <[(1, 6) := Cell (Some "Presentation Abstract") None]>
    (<[(1, 5) := Cell (Some "Topic Title") None]>
       (<[(1, 4) := Cell (Some "Persons Location") None]>
          (<[(1, 3) := Cell (Some "Session name") None]>
             (<[(1, 2) := Cell (Some "Affiliations") None]>
                (<[(1, 1) := Cell (Some "Name (incl, titles if any mentioned")
                                  None]> ∅))))).

(** The rows of [sh0] are where they were. *)
Definition frame_inv (sh0 : sheet) (st : write_state) : Prop :=
  max_row sh0 ≤ max_row st.2
  ∧ ∀ r c, r ≤ max_row sh0 → st.2 !! (r, c) = sh0 !! (r, c).

(** A string of 32768 letters, and two names that differ in character
    32769 only. *)
Fixpoint double_str (k : nat) (s : string) : string :=
  match k with
  | O => s
  | S k' => double_str k' (s +:+ s)
  end.
Definition long_prefix : string := double_str 15 "a".
Definition long_name_x : string := long_prefix +:+ "x".
Definition long_name_y : string := long_prefix +:+ "y".

(** A name with the control character 1 in front. *)
Definition control_name : string := String (Ascii.ascii_of_nat 1) "X".

(** Loop invariant of the writer, for a sheet [sh0] at the start of the
    call: the rows of [sh0] are untouched, every row below them carries a
    pair that is in [existing_authors], and no two of them the same. *)
Definition rows_inv (sh0 : sheet) (st : write_state) : Prop :=
  max_row sh0 ≤ max_row st.2
  ∧ (∀ r c, r ≤ max_row sh0 → st.2 !! (r, c) = sh0 !! (r, c))
  ∧ (∀ i, max_row sh0 < i ≤ max_row st.2 →
       ∃ s n, cell_value st.2 i 3 = Some s ∧ cell_value st.2 i 1 = Some n
              ∧ [s; n] ∈ st.1)
  ∧ (∀ i j, max_row sh0 < i ≤ max_row st.2 →
       max_row sh0 < j ≤ max_row st.2 →
       cell_value st.2 i 3 = cell_value st.2 j 3 →
       cell_value st.2 i 1 = cell_value st.2 j 1 → i = j).

(** Two blocks of one session that share an author, one name with the
    comma left over from the line before. *)
Definition shared_author_blocks : list article :=
  [Article ["Dr. X"; ", Dr. Y"] ["Uni A"] "Session 1" "Talk A" EmptyString;
   Article ["Dr. Y"; "Dr. Z"] [] "Session 1" "Talk B" EmptyString].

(** [existing_authors] when the writer has gone through [pre]; empty when
    it raised on the way. *)
Definition existing_after (pre : list article) (file : option sheet)
    : gset (list string) :=
  match for_each save_block pre (∅, loaded file) with
  | Some st => st.1
  | None => ∅
  end.

(** A document of two pages: on the first, one text block with the title,
    the session label and the author of a talk; the second is empty. *)
Definition synthetic_pdf : pdf :=
  [[Block 0 (Some [Line [Span "TimesNewRomanPS-BoldMT" 9 "Talk A";
                         Span "TimesNewRomanPS-BoldItal" 9.5 "Session 1";
                         Span "TimesNewRomanPS-ItalicMT" 9 "Dr. X"]])];
   []].

Definition talk_a : article :=
  Article ["Dr. X"] [] "Session 1" "Talk A" EmptyString.

(** The spans of a block in reading order. *)
Definition block_spans (lines : list line) : list span :=
  mjoin (line_spans <$> lines).

(** The texts of the spans of a role, in reading order. *)
Definition texts_of (r : role) (spans : list span) : list string :=
  span_text <$> filter (rule r) spans.

(** A block the generator yields for: a text block with content. *)
Definition yields (b : block) : bool :=
  match block_lines b with
  | Some lines => (block_type b =? 0)%Z && has_content (read_block lines)
  | None => false
  end.

(** Lines 193-195: the fill put on the six header cells. *)
Definition fill_header_row (sh : sheet) : sheet :=
  fold_left
    (λ sheet col,
       set_fill sheet 1 col
         (create_colored_header_style HEADER_BACKGROUND_COLOR))
    (seq 1 6) sh.

(** A dictionary after more text has been appended to its title,
    affiliations and abstract; session and authors the same. *)
Definition extends (a a' : article) : Prop :=
  session a' = session a
  ∧ authors a' = authors a
  ∧ (∃ s, title a' = title a +:+ s)
  ∧ (∃ l, affiliations a' = affiliations a ++ l)
  ∧ (∃ s, abstract a' = abstract a +:+ s).

(** The first reference of an input and the later ones whose record has a
    session. *)
Definition block_openers (h : heap) (blocks : list ref) : list ref :=
  match blocks with
  | [] => []
  | b :: rest => b :: filter (λ r, session (deref h r) ≠ EmptyString) rest
  end.

(** A text block with the given lines. *)
Definition text_block (lines : list line) : block := Block 0 (Some lines).

(** Lines 76-78 followed by lines 105-107 on the same dictionary: the
    continuation is appended, then the result to itself. *)
Definition absorb_twice (a c : article) : article :=
  absorb (absorb a c) (absorb a c).

(** The cells of a row, columns A to F. *)
Definition row_cells (sh : sheet) (i : nat) : list (option string) :=
  (λ c, cell_value sh i c) <$> [1; 2; 3; 4; 5; 6].

(** The row of lines 150-155 for an author of a block, as the cells keep
    it. *)
Definition row_of (b : article) (author : string) : list (option string) :=
  [stored (written_name author); stored (join ", " (affiliations b));
   stored (session b); stored EmptyString; stored (title b);
   stored (abstract b)].

(** The authors of all blocks, in order. *)
Definition all_authors (blocks : list article) : list string :=
  mjoin (authors <$> blocks).

(** Every row below row [m0] is the row of an author of a block in [S]. *)
Definition rows_from (m0 : nat) (S : article → Prop) (sh : sheet) : Prop :=
  m0 ≤ max_row sh
  ∧ ∀ i, m0 < i ≤ max_row sh →
         ∃ b a, S b ∧ a ∈ authors b ∧ row_cells sh i = row_of b a.

(** * Properties *)

(** ** The heap *)

Lemma length_update (h : heap) (r : ref) (f : article → article) :
  length (update h r f) = length h.
Proof. unfold update. apply length_insert. Qed.

Lemma deref_update_eq (h : heap) (r : ref) (f : article → article) :
  r < length h → deref (update h r f) r = f (deref h r).
Proof.
  intros Hr. unfold update, deref. by rewrite list_lookup_total_insert_eq.
Qed.

Lemma deref_update_ne (h : heap) (r r' : ref) (f : article → article) :
  r ≠ r' → deref (update h r f) r' = deref h r'.
Proof.
  intros Hne. unfold update, deref. by rewrite list_lookup_total_insert_ne.
Qed.

(** An update that keeps a field of every record keeps it all over the
    heap, also for a position outside of it. *)
Lemma deref_update_field {A} (g : article → A) (h : heap) (r r' : ref)
    (f : article → article) :
  (∀ a, g (f a) = g a) → g (deref (update h r f) r') = g (deref h r').
Proof.
  intros Hf. destruct (decide (r = r')) as [<-|Hne].
  - destruct (decide (r < length h)) as [Hlt|Hge].
    + by rewrite deref_update_eq.
    + unfold update. by rewrite list_insert_ge by lia.
  - by rewrite deref_update_ne.
Qed.

Lemma deref_alloc_old (h : heap) (a : article) (r : ref) :
  r < length h → deref (alloc h a).1 r = deref h r.
Proof. intros Hr. unfold alloc, deref. simpl. by rewrite lookup_total_app_l. Qed.

Lemma deref_alloc_new (h : heap) (a : article) :
  deref (alloc h a).1 (alloc h a).2 = a.
Proof.
  unfold alloc, deref. simpl.
  rewrite lookup_total_app_r by lia. by rewrite Nat.sub_diag.
Qed.

Lemma truthy_str_false (s : string) : truthy_str s = false ↔ s = EmptyString.
Proof. destruct s; simpl; split; congruence. Qed.

Lemma truthy_str_true (s : string) : truthy_str s = true ↔ s ≠ EmptyString.
Proof. destruct s; simpl; split; congruence. Qed.

(** ** Merger *)

Lemma merge_information_blocks_list (blocks : list ref) (h : heap) :
  merge_information_blocks (iter_list blocks) h
  = Some ((merge_loop blocks h ([], None)).1,
          opened (merge_loop blocks h ([], None)).2).
Proof.
  unfold merge_information_blocks, iter_list, merge_loop, opened.
  destruct (fold_left _ blocks _) as [h' [merged [c|]]]; simpl; try done.
  by rewrite app_nil_r.
Qed.

(** The merger never writes a session. *)
Lemma merge_block_session (h : heap) (st : merge_state) (block r : ref) :
  session (deref (merge_block h st block).1 r) = session (deref h r).
Proof.
  destruct st as [merged [c|]]; simpl; [|done].
  destruct (truthy_str (session (deref h block))); simpl; [done|].
  by rewrite !(deref_update_field session).
Qed.

Lemma merge_loop_session (blocks : list ref) (h : heap) (st : merge_state)
    (r : ref) :
  session (deref (merge_loop blocks h st).1 r) = session (deref h r).
Proof.
  unfold merge_loop. revert h st.
  induction blocks as [|b blocks IH]; intros h st; simpl; [done|].
  destruct (merge_block h st b) as [h1 st1] eqn:E. simpl.
  rewrite IH. by rewrite <- (merge_block_session h st b r), E.
Qed.

Lemma tail_snoc {A} (l : list A) (x : A) :
  l ≠ [] → tail (l ++ [x]) = tail l ++ [x].
Proof. by destruct l. Qed.

Lemma merge_block_inv (h : heap) (st : merge_state) (block : ref) :
  merge_inv h st →
  merge_inv (merge_block h st block).1 (merge_block h st block).2.
Proof.
  intros [Hnone Htail]. destruct st as [merged [c|]]; simpl in *.
  - destruct (truthy_str (session (deref h block))) eqn:Hs; simpl.
    + split; [done|]. unfold opened in *. simpl in *.
      rewrite tail_snoc by (by destruct merged).
      apply Forall_app. split; [done|].
      apply Forall_singleton. by apply truthy_str_true.
    + split; [done|]. unfold opened in *. simpl in *.
      eapply Forall_impl; [exact Htail|]. intros r Hr. simpl in Hr.
      by rewrite !(deref_update_field session).
  - rewrite (Hnone eq_refl). split; [done|]. by constructor.
Qed.

Lemma merge_loop_inv (blocks : list ref) (h : heap) (st : merge_state) :
  merge_inv h st →
  merge_inv (merge_loop blocks h st).1 (merge_loop blocks h st).2.
Proof.
  unfold merge_loop. revert h st.
  induction blocks as [|b blocks IH]; intros h st Hinv; simpl; [done|].
  destruct (merge_block h st b) as [h1 st1] eqn:E. simpl.
  apply IH. pose proof (merge_block_inv h st b Hinv) as H.
  by rewrite E in H.
Qed.

(** C5: for every list of records on every heap, the merger returns, and
    in the list it returns no two neighbours both have an empty session. *)
Theorem C5_merge_no_two_sessionless_neighbours (h : heap) (blocks : list ref) :
  ∃ h' out,
    merge_information_blocks (iter_list blocks) h = Some (h', out) ∧
    ∀ i r1 r2,
      out !! i = Some r1 → out !! S i = Some r2 →
      ¬ (session (deref h' r1) = EmptyString
         ∧ session (deref h' r2) = EmptyString).
Proof.
  rewrite merge_information_blocks_list.
  eexists _, _. split; [done|].
  assert (merge_inv h ([], None)) as Hinv0.
  { split; [done|]. constructor. }
  destruct (merge_loop_inv blocks h _ Hinv0) as [_ Htail].
  intros i r1 r2 _ H2 [_ He].
  destruct (opened _) as [|r0 out]; [done|]. simpl in *.
  rewrite Forall_forall in Htail. apply (Htail r2); [|done].
  eapply list_elem_of_lookup_2. exact H2.
Qed.

(** *** What the merger returns *)

Lemma string_app_assoc (s1 s2 s3 : string) :
  (s1 +:+ s2) +:+ s3 = s1 +:+ (s2 +:+ s3).
Proof.
  induction s1 as [|c s1 IH]; [done|].
  change (String c ((s1 +:+ s2) +:+ s3) = String c (s1 +:+ (s2 +:+ s3))).
  by f_equal.
Qed.

Lemma string_app_nil_r (s : string) : s +:+ EmptyString = s.
Proof.
  induction s as [|c s IH]; [done|].
  change (String c (s +:+ EmptyString) = String c s). by f_equal.
Qed.

Lemma merged_record_nil (start : article) : merged_record start [] = start.
Proof.
  destruct start. unfold merged_record. simpl.
  by rewrite app_nil_r, !string_app_nil_r.
Qed.

Lemma merged_record_cons (start b : article) (run : list article) :
  merged_record start (b :: run) = merged_record (absorb start b) run.
Proof.
  unfold merged_record, absorb.
  cbn [authors affiliations session title abstract].
  rewrite !fmap_cons. unfold concat_str. cbn [foldr].
  rewrite !string_app_assoc. f_equal.
  change (mjoin (affiliations b :: (affiliations <$> run)))
    with (affiliations b ++ mjoin (affiliations <$> run)).
  by rewrite app_assoc.
Qed.

Lemma merge_block_absorb (h : heap) (merged : list ref) (cb r : ref) :
  cb < length h → r ≠ cb → session (deref h r) = EmptyString →
  ∃ h1, merge_block h (merged, Some cb) r = (h1, (merged, Some cb))
        ∧ length h1 = length h
        ∧ deref h1 cb = absorb (deref h cb) (deref h r)
        ∧ ∀ r', r' ≠ cb → deref h1 r' = deref h r'.
Proof.
  intros Hcb Hne Hs. simpl. rewrite Hs. simpl.
  eexists. split; [reflexivity|]. split; [by rewrite !length_update|].
  split.
  - rewrite !deref_update_eq by (by rewrite ?length_update).
    by rewrite !(deref_update_ne _ cb r) by done.
  - intros r' Hr'. by rewrite !deref_update_ne by done.
Qed.

Lemma merge_block_open (h : heap) (merged : list ref) (cb r : ref) :
  session (deref h r) ≠ EmptyString →
  merge_block h (merged, Some cb) r = (h, (merged ++ [cb], Some r)).
Proof. intros Hs. simpl. apply truthy_str_true in Hs. by rewrite Hs. Qed.

Lemma merge_loop_cons (r : ref) (run : list ref) (h : heap) (st : merge_state) :
  merge_loop (r :: run) h st
  = merge_loop run (merge_block h st r).1 (merge_block h st r).2.
Proof. unfold merge_loop. simpl. by destruct (merge_block h st r). Qed.

Lemma merge_loop_app (l1 l2 : list ref) (h : heap) (st : merge_state) :
  merge_loop (l1 ++ l2) h st
  = merge_loop l2 (merge_loop l1 h st).1 (merge_loop l1 h st).2.
Proof.
  unfold merge_loop. rewrite fold_left_app.
  by destruct (fold_left _ l1 _).
Qed.

(** A run of records without session is absorbed by the open block. *)
Lemma merge_loop_run (run : list ref) (h : heap) (merged : list ref) (cb : ref) :
  cb < length h → cb ∉ run →
  Forall (λ r, session (deref h r) = EmptyString) run →
  ∃ h', merge_loop run h (merged, Some cb) = (h', (merged, Some cb))
        ∧ length h' = length h
        ∧ deref h' cb = merged_record (deref h cb) (deref h <$> run)
        ∧ ∀ r, r ≠ cb → deref h' r = deref h r.
Proof.
  revert h. induction run as [|r run IH]; intros h Hcb Hnot Hs.
  - exists h. by rewrite merged_record_nil.
  - apply not_elem_of_cons in Hnot as [Hne Hnot].
    apply Forall_cons in Hs as [Hr Hs].
    destruct (merge_block_absorb h merged cb r Hcb (not_eq_sym Hne) Hr)
      as (h1 & E1 & Hlen1 & Hcb1 & Hoth1).
    destruct (IH h1) as (h' & E' & Hlen' & Hcb' & Hoth').
    { lia. }
    { done. }
    { eapply Forall_impl; [exact Hs|]. intros r' Hr'. simpl in *.
      destruct (decide (r' = cb)) as [->|Hd].
      - rewrite Hcb1. done.
      - by rewrite Hoth1. }
    exists h'. rewrite merge_loop_cons, E1. cbn [fst snd].
    split; [done|]. split; [lia|]. split.
    + rewrite Hcb', Hcb1. rewrite fmap_cons, merged_record_cons.
      f_equal. apply list_fmap_ext. intros i r' Hi.
      apply Hoth1. intros ->. apply Hnot.
      eapply list_elem_of_lookup_2. exact Hi.
    + intros r' Hr'. rewrite Hoth' by done. by apply Hoth1.
Qed.

Lemma sessions_in_cons (h : heap) (r : ref) (l : list ref) :
  sessions_in h (r :: l)
  = (if truthy_str (session (deref h r)) then 1 else 0) + sessions_in h l.
Proof.
  unfold sessions_in. rewrite filter_cons.
  by destruct (session (deref h r)).
Qed.

Lemma sessions_in_ext (h1 h2 : heap) (l : list ref) :
  (∀ r, session (deref h1 r) = session (deref h2 r)) →
  sessions_in h1 l = sessions_in h2 l.
Proof.
  intros Hext. induction l as [|r l IH]; [done|].
  by rewrite !sessions_in_cons, IH, Hext.
Qed.

Lemma sessions_in_app (h : heap) (l1 l2 : list ref) :
  sessions_in h (l1 ++ l2) = sessions_in h l1 + sessions_in h l2.
Proof. unfold sessions_in. by rewrite filter_app, length_app. Qed.

(** With a block open, every record with a session adds one block. *)
Lemma merge_loop_length (blocks : list ref) (h : heap) (merged : list ref)
    (cb : ref) :
  length (opened (merge_loop blocks h (merged, Some cb)).2)
  = length merged + 1 + sessions_in h blocks.
Proof.
  revert h merged cb.
  induction blocks as [|b blocks IH]; intros h merged cb.
  - unfold merge_loop, opened, sessions_in. simpl. rewrite length_app. simpl. lia.
  - rewrite merge_loop_cons, sessions_in_cons.
    destruct (truthy_str (session (deref h b))) eqn:Hs.
    + rewrite merge_block_open by (by apply truthy_str_true).
      cbn [fst snd]. rewrite IH, length_app. simpl. lia.
    + pose proof (merge_block_session h (merged, Some cb) b) as Hsess.
      simpl in Hsess |- *. rewrite Hs in Hsess |- *. simpl in Hsess |- *.
      rewrite IH. rewrite (sessions_in_ext _ h) by exact Hsess. lia.
Qed.

Lemma merge_length (blocks : list ref) (h : heap) :
  length (opened (merge_loop blocks h ([], None)).2) = block_starts h blocks.
Proof.
  destruct blocks as [|b blocks]; [done|].
  rewrite merge_loop_cons. simpl. by rewrite merge_loop_length.
Qed.

Lemma elem_of_ungroup (groups : list (ref * list ref)) (g : ref * list ref)
    (r : ref) :
  g ∈ groups → r = g.1 ∨ r ∈ g.2 → r ∈ ungroup groups.
Proof.
  intros Hg Hr. unfold ungroup. apply list_elem_of_join.
  exists (g.1 :: g.2). split.
  - destruct Hr as [->|Hr]; [left|by right].
  - apply list_elem_of_fmap. by exists g.
Qed.

(** The groups that remain while a block is open: each opening record has
    a session, and the records of its run have none. *)
Lemma merge_loop_groups (groups : list (ref * list ref)) (h : heap)
    (merged : list ref) (cb : ref) :
  NoDup (ungroup groups) →
  Forall (λ r, r < length h) (ungroup groups) →
  Forall (λ g, session (deref h g.1) ≠ EmptyString) groups →
  Forall (λ g, Forall (λ r, session (deref h r) = EmptyString) g.2) groups →
  ∃ h' st',
    merge_loop (ungroup groups) h (merged, Some cb) = (h', st')
    ∧ opened st' = merged ++ cb :: groups.*1
    ∧ length h' = length h
    ∧ Forall (λ g, deref h' g.1
                   = merged_record (deref h g.1) (deref h <$> g.2)) groups
    ∧ ∀ r, r ∉ groups.*1 → deref h' r = deref h r.
Proof.
  revert h merged cb.
  induction groups as [|[hd run] groups IH];
    intros h merged cb Hnd Hval Hheads Hruns.
  - exists h, (merged, Some cb). unfold merge_loop, opened. simpl.
    repeat split; done.
  - unfold ungroup in Hnd, Hval. rewrite fmap_cons in Hnd, Hval.
    simpl in Hnd, Hval. fold (ungroup groups) in Hnd, Hval.
    apply NoDup_cons in Hnd as [Hhd Hnd].
    apply NoDup_app in Hnd as (Hnd_run & Hdisj & Hnd_rest).
    apply not_elem_of_app in Hhd as [Hhd_run Hhd_rest].
    apply Forall_cons in Hval as [Hhd_val Hval].
    apply Forall_app in Hval as [Hval_run Hval_rest].
    apply Forall_cons in Hheads as [Hhd_s Hheads].
    apply Forall_cons in Hruns as [Hrun_s Hruns]. simpl in *.
    destruct (merge_loop_run run h (merged ++ [cb]) hd Hhd_val Hhd_run Hrun_s)
      as (h1 & E1 & Hlen1 & Hhd1 & Hoth1).
    assert (∀ r, r ∈ ungroup groups → deref h1 r = deref h r) as Hsame.
    { intros r Hr. apply Hoth1. intros ->. done. }
    destruct (IH h1 (merged ++ [cb]) hd) as (h' & st' & E' & Hop & Hlen' & Hall & Hoth').
    { done. }
    { eapply Forall_impl; [exact Hval_rest|]. simpl. intros; lia. }
    { apply Forall_forall. intros g Hg.
      rewrite Forall_forall in Hheads. rewrite Hsame; [by apply Hheads|].
      eapply elem_of_ungroup; [exact Hg|by left]. }
    { apply Forall_forall. intros g Hg.
      rewrite Forall_forall in Hruns. specialize (Hruns g Hg).
      apply Forall_forall. intros r Hr. rewrite Forall_forall in Hruns.
      rewrite Hsame; [by apply Hruns|].
      eapply elem_of_ungroup; [exact Hg|by right]. }
    exists h', st'.
    change (ungroup ((hd, run) :: groups)) with ((hd :: run) ++ ungroup groups).
    rewrite merge_loop_app, merge_loop_cons.
    rewrite merge_block_open by done. cbn [fst snd]. rewrite E1. cbn [fst snd].
    split; [done|]. split.
    { rewrite Hop, <- app_assoc. done. }
    split; [lia|]. split.
    + apply Forall_cons. split.
      * simpl. rewrite Hoth'; [done|]. intros Hin.
        apply Hhd_rest. apply list_elem_of_fmap in Hin as (g & -> & Hg).
        eapply elem_of_ungroup; [exact Hg|by left].
      * rewrite Forall_forall in Hall. apply Forall_forall. intros g Hg.
        rewrite (Hall g Hg). rewrite Hsame.
        2:{ eapply elem_of_ungroup; [exact Hg|by left]. }
        f_equal. apply list_fmap_ext. intros i r Hi. apply Hsame.
        eapply elem_of_ungroup; [exact Hg|right].
        by eapply list_elem_of_lookup_2.
    + intros r Hr. simpl in Hr. apply not_elem_of_cons in Hr as [Hr1 Hr2].
      rewrite Hoth' by done. by apply Hoth1.
Qed.

Lemma group_runs_spec (h : heap) (blocks : list ref) :
  ungroup (group_runs h blocks) = blocks
  ∧ Forall (λ g, Forall (λ r, session (deref h r) = EmptyString) g.2)
           (group_runs h blocks)
  ∧ Forall (λ g, session (deref h g.1) ≠ EmptyString)
           (tail (group_runs h blocks)).
Proof.
  induction blocks as [|b rest (IH1 & IH2 & IH3)]; simpl.
  - repeat split; constructor.
  - destruct (group_runs h rest) as [|[hd run] groups]; simpl in *.
    + rewrite <- IH1. repeat split; repeat constructor.
    + apply Forall_cons in IH2 as [Hrun IH2]. simpl in Hrun.
      destruct (truthy_str (session (deref h hd))) eqn:Hs; simpl.
      * rewrite <- IH1. unfold ungroup. simpl. split; [done|]. split.
        -- repeat constructor; done.
        -- constructor; [by apply truthy_str_true|done].
      * rewrite <- IH1. unfold ungroup. simpl. split; [done|]. split.
        -- constructor; [|done]. simpl. constructor; [|done].
           by apply truthy_str_false.
        -- done.
Qed.

(** C6, as stated, fails for an input whose first record has no session:
    that record opens a block all the same, so one record comes back where
    the input has no record with a session. *)
Lemma C6_counterexample_sessionless_first_record :
  let h := [Article [] [] EmptyString "T" EmptyString] in
  ∃ h' out,
    merge_information_blocks (iter_list [0]) h = Some (h', out)
    ∧ length out = 1
    ∧ sessions_in h [0] = 0
    ∧ length out ≠ sessions_in h [0].
Proof.
  simpl. eexists _, _. split; [reflexivity|].
  vm_compute. repeat split; congruence.
Qed.

(** C6, amended: the merger returns one record for the first record of its
    input and one for every later record with a session.  When the input
    records are distinct objects, cut into groups of an opening record and
    the run of sessionless records after it, the merger returns the opening
    records in order, each merged with its run: titles and abstracts
    concatenated, affiliations extended, session and authors kept. *)
Theorem C6_merge_one_record_per_block_start (h : heap) (blocks : list ref) :
  ∃ h' out,
    merge_information_blocks (iter_list blocks) h = Some (h', out)
    ∧ length out = block_starts h blocks
    ∧ ∀ groups : list (ref * list ref),
        ungroup groups = blocks →
        NoDup blocks →
        Forall (λ r, r < length h) blocks →
        Forall (λ g, Forall (λ r, session (deref h r) = EmptyString) g.2)
               groups →
        Forall (λ g, session (deref h g.1) ≠ EmptyString) (tail groups) →
        out = groups.*1
        ∧ Forall (λ g, deref h' g.1
                       = merged_record (deref h g.1) (deref h <$> g.2))
                 groups.
Proof.
  rewrite merge_information_blocks_list. eexists _, _.
  split; [reflexivity|]. split; [apply merge_length|].
  intros groups <- Hnd Hval Hruns Hheads.
  destruct groups as [|[hd run] groups]; [by split|].
  change (ungroup ((hd, run) :: groups)) with ((hd :: run) ++ ungroup groups)
    in *.
  simpl in Hnd, Hval, Hheads.
  apply NoDup_cons in Hnd as [Hhd Hnd].
  apply NoDup_app in Hnd as (Hnd_run & Hdisj & Hnd_rest).
  apply not_elem_of_app in Hhd as [Hhd_run Hhd_rest].
  apply Forall_cons in Hval as [Hhd_val Hval].
  apply Forall_app in Hval as [Hval_run Hval_rest].
  apply Forall_cons in Hruns as [Hrun_s Hruns]. simpl in Hrun_s.
  rewrite merge_loop_app, merge_loop_cons.
  change (merge_block h ([], None) hd) with (h, (@nil ref, Some hd)).
  cbn [fst snd].
  destruct (merge_loop_run run h [] hd Hhd_val Hhd_run Hrun_s)
    as (h1 & E1 & Hlen1 & Hhd1 & Hoth1).
  rewrite E1. cbn [fst snd].
  assert (∀ r, r ∈ ungroup groups → deref h1 r = deref h r) as Hsame.
  { intros r Hr. apply Hoth1. by intros ->. }
  destruct (merge_loop_groups groups h1 [] hd) as (h' & st' & E' & Hop & Hlen' & Hall & Hoth').
  { done. }
  { eapply Forall_impl; [exact Hval_rest|]. simpl. intros; lia. }
  { apply Forall_forall. intros g Hg.
    rewrite Forall_forall in Hheads. rewrite Hsame; [by apply Hheads|].
    eapply elem_of_ungroup; [exact Hg|by left]. }
  { apply Forall_forall. intros g Hg.
    rewrite Forall_forall in Hruns. specialize (Hruns g Hg).
    apply Forall_forall. intros r Hr. rewrite Forall_forall in Hruns.
    rewrite Hsame; [by apply Hruns|].
    eapply elem_of_ungroup; [exact Hg|by right]. }
  rewrite E'. cbn [fst snd]. split; [by rewrite Hop|].
  apply Forall_cons. split.
  - simpl. rewrite Hoth'; [done|]. intros Hin.
    apply Hhd_rest. apply list_elem_of_fmap in Hin as (g & -> & Hg).
    eapply elem_of_ungroup; [exact Hg|by left].
  - rewrite Forall_forall in Hall. apply Forall_forall. intros g Hg.
    rewrite (Hall g Hg). rewrite Hsame.
    2:{ eapply elem_of_ungroup; [exact Hg|by left]. }
    f_equal. apply list_fmap_ext. intros i r Hi. apply Hsame.
    eapply elem_of_ungroup; [exact Hg|right].
    by eapply list_elem_of_lookup_2.
Qed.

Lemma C6_witness :
  ∃ h' out,
    merge_information_blocks (iter_list [0; 1; 2]) merge_sample
    = Some (h', out)
    ∧ length out = 2
    ∧ out = [0; 2]
    ∧ deref h' 0 = Article ["A"] ["U1"; "U2"] "S1" "T1T2" "X1X2".
Proof.
  destruct (C6_merge_one_record_per_block_start merge_sample [0; 1; 2])
    as (h' & out & E & Hlen & Hgroups).
  destruct (Hgroups [(0, [1]); (2, [])]) as [Hout Hall].
  - reflexivity.
  - apply (bool_decide_unpack _). by vm_compute.
  - repeat constructor.
  - repeat constructor.
  - repeat constructor. by vm_compute.
  - exists h', out. split; [exact E|]. split; [exact Hlen|].
    split; [exact Hout|].
    apply Forall_cons in Hall as [H0 _]. exact H0.
Defined.

(** ** Extractor: the role of a span *)

Lemma font_test (f g : string) : String.eqb f g = true ↔ f = g.
Proof. apply String.eqb_eq. Qed.

Lemma size_test (x y : Q) : Qeq_bool x y = true ↔ Qeq x y.
Proof. apply Qeq_bool_iff. Qed.

Lemma sizes_differ (x y z : Q) :
  Qeq x y → Qeq x z → Qeq_bool y z = false → False.
Proof.
  intros Hy Hz Hyz. assert (Qeq y z) as H by (by rewrite <- Hy, <- Hz).
  apply size_test in H. congruence.
Qed.

(** No span satisfies two rules. *)
Lemma rule_exclusive (sp : span) (r r' : role) :
  rule r sp → rule r' sp → r = r'.
Proof.
  destruct r, r'; simpl; try done;
    repeat match goal with
           | |- _ ∧ _ → _ => intros [? ?]
           | |- _ → _ => intros ?
           end;
    try congruence;
    exfalso;
    match goal with
    | H1 : Qeq (span_size sp) ?y, H2 : Qeq (span_size sp) ?z |- _ =>
        apply (sizes_differ _ _ _ H1 H2); by vm_compute
    end.
Qed.

(** The span loop does what the rule of the span says. *)
Lemma add_span_rule (cur : article) (sp : span) (r : role) :
  rule r sp → add_span cur sp = assign r (span_text sp) cur.
Proof.
  intros Hr. unfold add_span.
  destruct (String.eqb (span_font sp) "TimesNewRomanPS-BoldItal"
            && Qeq_bool (span_size sp) FONT_SIZE_PARAGRAPH) eqn:E1.
  { apply andb_true_iff in E1 as [?%font_test ?%size_test].
    by rewrite (rule_exclusive sp r SessionLabel). }
  destruct (String.eqb (span_font sp) "TimesNewRomanPS-BoldMT"
            && Qeq_bool (span_size sp) FONT_SIZE_TITLE) eqn:E2.
  { apply andb_true_iff in E2 as [?%font_test ?%size_test].
    by rewrite (rule_exclusive sp r Title). }
  destruct (String.eqb (span_font sp) "TimesNewRomanPS-ItalicMT"
            && Qeq_bool (span_size sp) FONT_SIZE_AUTHORS) eqn:E3.
  { apply andb_true_iff in E3 as [?%font_test ?%size_test].
    by rewrite (rule_exclusive sp r Authors). }
  destruct (String.eqb (span_font sp) "TimesNewRomanPS-ItalicMT"
            && Qeq_bool (span_size sp) FONT_SIZE_AFFILIATIONS) eqn:E4.
  { apply andb_true_iff in E4 as [?%font_test ?%size_test].
    by rewrite (rule_exclusive sp r Affiliations). }
  destruct (Qeq_bool (span_size sp) FONT_SIZE_ABSTRACT) eqn:E5.
  { apply size_test in E5. by rewrite (rule_exclusive sp r Abstract). }
  exfalso. destruct r; simpl in Hr.
  - destruct Hr as [?%font_test ?%size_test]. by rewrite andb_false_iff in E1; destruct E1; congruence.
  - destruct Hr as [?%font_test ?%size_test]. by rewrite andb_false_iff in E2; destruct E2; congruence.
  - destruct Hr as [?%font_test ?%size_test]. by rewrite andb_false_iff in E3; destruct E3; congruence.
  - destruct Hr as [?%font_test ?%size_test]. by rewrite andb_false_iff in E4; destruct E4; congruence.
  - apply size_test in Hr. congruence.
Qed.

Lemma add_span_no_rule (cur : article) (sp : span) :
  (∀ r, ¬ rule r sp) → add_span cur sp = cur.
Proof.
  intros Hno. unfold add_span.
  destruct (String.eqb (span_font sp) "TimesNewRomanPS-BoldItal"
            && Qeq_bool (span_size sp) FONT_SIZE_PARAGRAPH) eqn:E1.
  { apply andb_true_iff in E1 as [?%font_test ?%size_test].
    by destruct (Hno SessionLabel). }
  destruct (String.eqb (span_font sp) "TimesNewRomanPS-BoldMT"
            && Qeq_bool (span_size sp) FONT_SIZE_TITLE) eqn:E2.
  { apply andb_true_iff in E2 as [?%font_test ?%size_test].
    by destruct (Hno Title). }
  destruct (String.eqb (span_font sp) "TimesNewRomanPS-ItalicMT"
            && Qeq_bool (span_size sp) FONT_SIZE_AUTHORS) eqn:E3.
  { apply andb_true_iff in E3 as [?%font_test ?%size_test].
    by destruct (Hno Authors). }
  destruct (String.eqb (span_font sp) "TimesNewRomanPS-ItalicMT"
            && Qeq_bool (span_size sp) FONT_SIZE_AFFILIATIONS) eqn:E4.
  { apply andb_true_iff in E4 as [?%font_test ?%size_test].
    by destruct (Hno Affiliations). }
  destruct (Qeq_bool (span_size sp) FONT_SIZE_ABSTRACT) eqn:E5.
  { apply size_test in E5. by destruct (Hno Abstract). }
  done.
Qed.

Lemma rule_or_none (sp : span) : (∃ r, rule r sp) ∨ (∀ r, ¬ rule r sp).
Proof.
  destruct (decide (rule SessionLabel sp)); [left; by eexists|].
  destruct (decide (rule Title sp)); [left; by eexists|].
  destruct (decide (rule Authors sp)); [left; by eexists|].
  destruct (decide (rule Affiliations sp)); [left; by eexists|].
  destruct (decide (rule Abstract sp)); [left; by eexists|].
  right. by intros [].
Qed.

(** A span without role can be taken out of its line. *)
Lemma add_line_without_unmatched (cur : article) (l1 l2 : list span)
    (sp : span) :
  (∀ r, ¬ rule r sp) →
  add_line cur (Line (l1 ++ sp :: l2)) = add_line cur (Line (l1 ++ l2)).
Proof.
  intros Hno. unfold add_line. simpl. rewrite !fold_left_app. simpl.
  by rewrite add_span_no_rule.
Qed.

(** C2, as stated, fails for the abstract: a span of the abstract's size
    goes to the abstract whatever its font, here one the program never
    compares with. *)
Lemma C2_counterexample_abstract_ignores_font :
  let sp := Span "Helvetica" FONT_SIZE_ABSTRACT "x" in
  (span_font sp ∉ known_fonts)
  ∧ (add_span new_article sp = set_abstract "x" new_article)
  ∧ (add_span new_article sp ≠ new_article).
Proof.
  simpl. split; [|split].
  - apply (bool_decide_unpack _). by vm_compute.
  - by vm_compute.
  - by vm_compute.
Qed.

(** C2, amended: a span has at most one of the five roles; session label,
    title, authors and affiliations are assigned by an exact match of font
    name and font size, the abstract by an exact match of the font size
    alone; the text of the span goes to the field of its role and to no
    other, and a span that matches no rule leaves the record as it is. *)
Theorem C2_span_role_by_font_and_size (cur : article) (sp : span)
    (o : option role) :
  match o with
  | Some r => rule r sp
  | None => ∀ r, ¬ rule r sp
  end →
  add_span cur sp
  = match o with
    | Some r => assign r (span_text sp) cur
    | None => cur
    end
  ∧ ∀ r', rule r' sp → o = Some r'.
Proof.
  destruct o as [r|]; intros Ho.
  - split; [by apply add_span_rule|].
    intros r' Hr'. f_equal. by apply (rule_exclusive sp).
  - split; [by apply add_span_no_rule|].
    intros r' Hr'. by destruct (Ho r').
Qed.

Lemma C2_witness :
  add_span new_article (Span "TimesNewRomanPS-BoldMT" 9 "Talk A")
  = Article [] [] EmptyString "Talk A" EmptyString
  ∧ add_span new_article (Span "Courier" 12 "7") = new_article.
Proof.
  split.
  - refine (proj1 (C2_span_role_by_font_and_size new_article
                     (Span "TimesNewRomanPS-BoldMT" 9 "Talk A")
                     (Some Title) _)).
    simpl. split; reflexivity.
  - refine (proj1 (C2_span_role_by_font_and_size new_article
                     (Span "Courier" 12 "7") None _)).
    intros r. destruct r; simpl; try (intros [H _]; discriminate H);
      intros H; vm_compute in H; discriminate H.
Defined.

(** ** Extractor: continuation blocks *)

Lemma collect_keeps_heap : keeps_heap collect.
Proof. by intros h t r. Qed.

Lemma merge_block_keeps_heap : keeps_heap merge_block.
Proof.
  intros h [merged [c|]] r; simpl; [|done].
  destruct (truthy_str _); simpl; [done|]. by rewrite !length_update.
Qed.

Lemma length_merge_continuation (h : heap) (p c : ref) :
  length (merge_continuation h p c) = length h.
Proof. unfold merge_continuation. by rewrite !length_update. Qed.

Lemma extract_block_allocated {T} (body : loop_body T) (st st' : gen_state)
    (b : block) :
  keeps_heap body → previous_allocated st →
  extract_block body st b = Some st' → previous_allocated st'.
Proof.
  intros Hbody Hprev. destruct st as [[h t] prev].
  unfold extract_block, yield_article, previous_allocated in *. simpl in *.
  destruct (block_lines b) as [lines|]; [|done].
  repeat case_match; intros; simplify_eq/=;
    repeat match goal with
    | H : body ?h ?t ?r = (_, _) |- _ =>
        pose proof (Hbody h t r) as Hlen; rewrite H in Hlen; simpl in Hlen;
        clear H
    end;
    rewrite ?length_merge_continuation, ?length_app in *; simpl in *;
    try lia.
  all: specialize (Hprev _ eq_refl); lia.
Qed.

Lemma extract_blocks_allocated {T} (body : loop_body T) (bs : list block)
    (st st' : gen_state) :
  keeps_heap body → previous_allocated st →
  extract_blocks body st bs = Some st' → previous_allocated st'.
Proof.
  intros Hbody. revert st.
  induction bs as [|b bs IH]; intros st Hprev; simpl.
  - by intros [= <-].
  - destruct (extract_block body st b) as [st1|] eqn:E; [|done].
    apply IH. by eapply extract_block_allocated.
Qed.

(** The three updates of lines 76-78 as one. *)
Lemma merge_continuation_spec (h : heap) (p c : ref) :
  p < length h → c ≠ p →
  deref (merge_continuation h p c) p = absorb (deref h p) (deref h c)
  ∧ ∀ r, r ≠ p → deref (merge_continuation h p c) r = deref h r.
Proof.
  intros Hp Hne. unfold merge_continuation. split.
  - rewrite !deref_update_eq by (by rewrite ?length_update).
    by rewrite !(deref_update_ne _ p c) by done.
  - intros r Hr. by rewrite !deref_update_ne by done.
Qed.

(** A continuation block: what the generator runs for it. *)
Lemma extract_block_continuation {T} (body : loop_body T)
    (h : heap) (t : T) (p : ref) (b : block) (lines : list line) :
  block_type b = 0%Z →
  block_lines b = Some lines →
  session (read_block lines) = EmptyString →
  has_content (read_block lines) = true →
  extract_block body (h, t, Some p) b
  = yield_article body
      (merge_continuation (h ++ [read_block lines]) p (length h)) t p
  ∧ extract_block body (h, t, None) b
    = yield_article body (h ++ [read_block lines]) t (length h).
Proof.
  intros Hty Hlines Hsess Hcont.
  pose proof (deref_alloc_new h (read_block lines)) as Hnew.
  unfold alloc in Hnew. simpl in Hnew.
  unfold extract_block, alloc. rewrite Hlines, Hty. simpl.
  by rewrite Hnew, Hcont, Hsess.
Qed.

(** Merging the dictionary just allocated into an older one. *)
Lemma merge_continuation_fresh (h : heap) (p : ref) (c : article) :
  p < length h →
  deref (merge_continuation (h ++ [c]) p (length h)) p = absorb (deref h p) c
  ∧ ∀ r, r < length h → r ≠ p →
         deref (merge_continuation (h ++ [c]) p (length h)) r = deref h r.
Proof.
  intros Hp.
  destruct (merge_continuation_spec (h ++ [c]) p (length h)) as [Hmp Hoth].
  { rewrite length_app. simpl. lia. }
  { lia. }
  pose proof (deref_alloc_new h c) as Hnew.
  unfold alloc in Hnew. simpl in Hnew.
  split.
  - rewrite Hmp, Hnew. unfold deref. by rewrite lookup_total_app_l.
  - intros r Hr Hne. rewrite Hoth by done.
    unfold deref. by rewrite lookup_total_app_l.
Qed.

(** C3, as stated, fails when the block before the continuation yielded
    nothing: the record yielded last (position 0) is left as it was, and
    the continuation comes out as a record of its own (position 1, the
    dictionary of the block in between). *)
Lemma C3_counterexample_unyielded_block_between :
  (∃ h, to_list (extract_information_from_pdf
                   [[talk_block; unrecognised_block]] 1) []
        = Some (h, [0]))
  ∧ ∃ h, to_list (extract_information_from_pdf
                    [[talk_block; unrecognised_block; title_block]] 1) []
         = Some (h, [0; 1])
         ∧ deref h 0 = Article [] [] "S" "T" EmptyString
         ∧ deref h 1 = Article [] [] EmptyString "U" EmptyString
         ∧ title (deref h 0) ≠ "TU".
Proof.
  split.
  - eexists. by vm_compute.
  - eexists. split; [by vm_compute|]. by vm_compute.
Qed.

(** C3, amended: a text block with content but without session text is
    merged into the dictionary of the block just before it in the scan,
    yielded or not: its title and abstract are appended to that
    dictionary's, its affiliations added after that dictionary's, session
    and authors and every other dictionary stay as they are, and that
    dictionary is yielded in place of the block's own.  The first block of
    the scan has no block before it, and its own dictionary is yielded. *)
Theorem C3_continuation_merges_into_previous_block {T} (body : loop_body T)
    (h : heap) (t : T) (p : ref) (b : block) (lines : list line) :
  p < length h →
  block_type b = 0%Z →
  block_lines b = Some lines →
  session (read_block lines) = EmptyString →
  has_content (read_block lines) = true →
  ∃ hm,
    extract_block body (h, t, Some p) b = yield_article body hm t p
    ∧ title (deref hm p) = title (deref h p) +:+ title (read_block lines)
    ∧ affiliations (deref hm p)
      = affiliations (deref h p) ++ affiliations (read_block lines)
    ∧ abstract (deref hm p)
      = abstract (deref h p) +:+ abstract (read_block lines)
    ∧ session (deref hm p) = session (deref h p)
    ∧ authors (deref hm p) = authors (deref h p)
    ∧ (∀ r, r < length h → r ≠ p → deref hm r = deref h r)
    ∧ extract_block body (h, t, None) b
      = yield_article body (h ++ [read_block lines]) t (length h).
Proof.
  intros Hp Hty Hlines Hsess Hcont.
  destruct (extract_block_continuation body h t p b lines Hty Hlines Hsess
              Hcont) as [Eprev Efirst].
  destruct (merge_continuation_fresh h p (read_block lines) Hp)
    as [Hmerged Hothers].
  exists (merge_continuation (h ++ [read_block lines]) p (length h)).
  split; [exact Eprev|]. rewrite Hmerged. unfold absorb. simpl.
  repeat split; done.
Qed.

Lemma C3_witness :
  let h := [Article ["Dr. X"] ["Uni A"] "Session 1" "Talk" "Abs"] in
  let lines := [Line [Span "TimesNewRomanPS-BoldMT" 9 " A";
                      Span "TimesNewRomanPS-ItalicMT" 8 "Uni B"]] in
  ∃ hm,
    extract_block collect (h, [0], Some 0) (Block 0 (Some lines))
    = yield_article collect hm [0] 0
    ∧ title (deref hm 0) = title (deref h 0) +:+ title (read_block lines)
    ∧ affiliations (deref hm 0)
      = affiliations (deref h 0) ++ affiliations (read_block lines)
    ∧ abstract (deref hm 0)
      = abstract (deref h 0) +:+ abstract (read_block lines)
    ∧ session (deref hm 0) = session (deref h 0)
    ∧ authors (deref hm 0) = authors (deref h 0)
    ∧ (∀ r, r < length h → r ≠ 0 → deref hm r = deref h r)
    ∧ extract_block collect (h, [0], None) (Block 0 (Some lines))
      = yield_article collect (h ++ [read_block lines]) [0] (length h).
Proof.
  intros h lines.
  apply (C3_continuation_merges_into_previous_block collect h [0] 0
           (Block 0 (Some lines)) lines).
  - simpl. lia.
  - reflexivity.
  - reflexivity.
  - by vm_compute.
  - by vm_compute.
Defined.

(** ** Extractor: a record yielded twice *)



(** The same through the generator: one page, the talk and the block that
    continues its title; the list made of the generator has the record at
    position 0 twice, with the title of both blocks. *)
Example extract_yields_record_twice :
  to_list (extract_information_from_pdf [[talk_block; title_block]] 1) []
  = Some ([Article [] [] "S" "TU" EmptyString;
           Article [] [] EmptyString "U" EmptyString], [0; 0]).
Proof. by vm_compute. Qed.

(** ** The merger fed by the generator *)

Lemma length_merge_block (h : heap) (st : merge_state) (r : ref) :
  length (merge_block h st r).1 = length h.
Proof.
  destruct st as [merged [c|]]; simpl; [|done].
  destruct (truthy_str _); simpl; [done|]. by rewrite !length_update.
Qed.

Lemma merge_block_opened (h : heap) (st : merge_state) (r x : ref) :
  x ∈ opened (merge_block h st r).2 → x = r ∨ x ∈ opened st.
Proof.
  destruct st as [merged [c|]]; unfold opened; simpl.
  - destruct (truthy_str _); simpl.
    + rewrite !elem_of_app, !list_elem_of_singleton. tauto.
    + by right.
  - rewrite !elem_of_app, list_elem_of_singleton. tauto.
Qed.

(** The generator's own writes (a new dictionary, a merge into an old one)
    keep the merger's invariant. *)
Lemma merge_inv_grow (h h' : heap) (st : merge_state) :
  Forall (λ r, r < length h) (opened st) →
  (∀ r, r < length h → session (deref h' r) = session (deref h r)) →
  merge_inv h st → merge_inv h' st.
Proof.
  intros Hval Hsess [Hnone Htail]. split; [done|].
  rewrite Forall_forall in Hval, Htail. apply Forall_forall. intros r Hr.
  rewrite Hsess; [by apply Htail|].
  apply Hval. destruct (opened st); [done|]. by right.
Qed.

Lemma yield_pipeline_inv (h : heap) (st : merge_state) (r : ref) :
  merge_inv h st → Forall (λ r, r < length h) (opened st) → r < length h →
  pipeline_inv (merge_block h st r, Some r).
Proof.
  intros Hinv Hval Hr. unfold pipeline_inv, previous_allocated.
  pose proof (merge_block_inv h st r Hinv) as Hinv'.
  pose proof (length_merge_block h st r) as Hlen.
  destruct (merge_block h st r) as [h' st'] eqn:E. simpl in *.
  split; [done|]. split.
  - apply Forall_forall. intros x Hx. rewrite Hlen.
    assert (x = r ∨ x ∈ opened st) as [->|Hin]; [|done|].
    { apply (merge_block_opened h st r). by rewrite E. }
    rewrite Forall_forall in Hval. by apply Hval.
  - intros p [= <-]. lia.
Qed.

Lemma extract_block_pipeline_inv (st st' : gen_state) (b : block) :
  pipeline_inv st → extract_block merge_block st b = Some st' →
  pipeline_inv st'.
Proof.
  destruct st as [[h ms] prev]. intros (Hinv & Hval & Hprev).
  unfold previous_allocated in Hprev. simpl in Hinv, Hval, Hprev.
  unfold extract_block, alloc.
  destruct (block_lines b) as [lines|]; [|done].
  set (c := read_block lines). set (h1 := h ++ [c]).
  assert (length h1 = S (length h)) as Hlen1.
  { unfold h1. rewrite length_app. simpl. lia. }
  assert (∀ r, r < length h → deref h1 r = deref h r) as Hold.
  { intros r Hr. unfold deref, h1. by rewrite lookup_total_app_l. }
  assert (Forall (λ r, r < length h1) (opened ms)) as Hval1.
  { eapply Forall_impl; [exact Hval|]. simpl. intros; lia. }
  assert (merge_inv h1 ms) as Hinv1.
  { apply (merge_inv_grow h); [done| |done]. intros r Hr. by rewrite Hold. }
  assert (pipeline_inv (h1, ms, Some (length h))) as Hquiet.
  { split; [done|]. split; [done|]. intros p [= <-]. simpl. lia. }
  assert (pipeline_inv (merge_block h1 ms (length h), Some (length h)))
    as Hown.
  { apply yield_pipeline_inv; [done..|lia]. }
  unfold yield_article.
  destruct (block_type b =? 0)%Z; [|by intros [= <-]].
  destruct (has_content (deref h1 (length h))); [|by intros [= <-]].
  destruct (negb (truthy_str (session (deref h1 (length h))))).
  - destruct prev as [p|].
    + specialize (Hprev p eq_refl).
      set (h2 := merge_continuation h1 p (length h)).
      assert (pipeline_inv (merge_block h2 ms p, Some p)) as Hmerged.
      { apply yield_pipeline_inv.
        - apply (merge_inv_grow h1); [done| |done]. intros r _.
          unfold h2, merge_continuation.
          by rewrite !(deref_update_field session).
        - unfold h2. by rewrite length_merge_continuation.
        - unfold h2. rewrite length_merge_continuation. lia. }
      destruct (merge_block h2 ms p) as [h3 ms3]. by intros [= <-].
    + destruct (merge_block h1 ms (length h)) as [h3 ms3]. by intros [= <-].
  - destruct (merge_block h1 ms (length h)) as [h3 ms3]. by intros [= <-].
Qed.

Lemma extract_blocks_pipeline_inv (bs : list block) (st st' : gen_state) :
  pipeline_inv st → extract_blocks merge_block st bs = Some st' →
  pipeline_inv st'.
Proof.
  revert st. induction bs as [|b bs IH]; intros st Hinv; simpl.
  - by intros [= <-].
  - destruct (extract_block merge_block st b) as [st1|] eqn:E; [|done].
    apply IH. by eapply extract_block_pipeline_inv.
Qed.

Lemma extract_pages_pipeline_inv (file : pdf) (pns : list Z)
    (st st' : gen_state) :
  pipeline_inv st → extract_pages merge_block file st pns = Some st' →
  pipeline_inv st'.
Proof.
  revert st. induction pns as [|pn pns IH]; intros st Hinv; simpl.
  - by intros [= <-].
  - destruct (load_page file pn) as [pg|]; [|done].
    destruct (extract_blocks merge_block st pg) as [st1|] eqn:E; [|done].
    apply IH. by eapply extract_blocks_pipeline_inv.
Qed.

(** The property of C5 for the program as it runs: the merger fed by the
    generator, which goes on writing to the records it has yielded. *)
Lemma merge_extracted_no_two_sessionless_neighbours (file : pdf)
    (start_page : Z) (h' : heap) (out : list ref) :
  merge_information_blocks (extract_information_from_pdf file start_page) []
  = Some (h', out) →
  ∀ i r1 r2,
    out !! i = Some r1 → out !! S i = Some r2 →
    ¬ (session (deref h' r1) = EmptyString
       ∧ session (deref h' r2) = EmptyString).
Proof.
  unfold merge_information_blocks, extract_information_from_pdf.
  match goal with
  | |- context [extract_pages ?body ?f ?st ?pns] =>
      destruct (extract_pages body f st pns) as [[[h1 ms] prev]|] eqn:E;
        [|done]
  end.
  assert (pipeline_inv (h1, ms, prev)) as ((_ & Htail) & _ & _).
  { eapply extract_pages_pipeline_inv; [|exact E].
    split; [|split]; [split; [done|constructor]|constructor|done]. }
  simpl in Htail. destruct ms as [merged cur]. intros [= <- <-].
  assert (match cur with
          | Some c => merged ++ [c]
          | None => merged
          end = opened (merged, cur)) as ->.
  { unfold opened. simpl. destruct cur; [done|by rewrite app_nil_r]. }
  intros i r1 r2 _ H2 [_ He].
  destruct (opened (merged, cur)) as [|r0 rest]; [done|]. simpl in *.
  rewrite Forall_forall in Htail. apply (Htail r2); [|done].
  eapply list_elem_of_lookup_2. exact H2.
Qed.

(** ** Strings by characters *)

Lemma take_chars_short (s : string) (n : N) :
  (char_count s ≤ n)%N → take_chars n s = s.
Proof.
  revert n. induction s as [|c s IH]; intros n Hn; [done|].
  cbn [take_chars char_count] in *.
  destruct (is_continuation c).
  - by rewrite IH.
  - destruct (N.eqb_spec n 0) as [->|Hn0]; [lia|]. rewrite IH; [done|lia].
Qed.

Lemma stored_short (v : string) : short v → stored v = Some v.
Proof. intros H. unfold stored. by rewrite take_chars_short. Qed.

Lemma string_app_cons (c : Ascii.ascii) (s1 s2 : string) :
  String c s1 +:+ s2 = String c (s1 +:+ s2).
Proof. reflexivity. Qed.

Lemma drop_continuation_app (rest s : string) :
  drop_continuation rest = EmptyString → at_boundary s →
  drop_continuation (rest +:+ s) = s.
Proof.
  intros Hrest Hs. induction rest as [|c rest IH]; [exact Hs|].
  rewrite string_app_cons. cbn [drop_continuation] in *.
  destruct (is_continuation c); [by apply IH|done].
Qed.

(** Without the comma and the character after it. *)
Lemma slice_from_comma (ch name : string) :
  is_char ch → at_boundary name →
  slice_from 2 ("," +:+ ch +:+ name) = name.
Proof.
  intros (c & rest & -> & Hc & Hrest) Hname.
  change ("," +:+ String c rest +:+ name)
    with (String (Ascii.ascii_of_nat 44) (String c (rest +:+ name))).
  cbn [slice_from drop_continuation]. rewrite Hc.
  by apply drop_continuation_app.
Qed.

(** ** Spreadsheet *)

Lemma max_row_insert_fresh (sh : sheet) (k : nat * nat) (x : cell) :
  sh !! k = None → max_row (<[k := x]> sh) = k.1 `max` max_row sh.
Proof.
  intros Hk. unfold max_row.
  rewrite map_fold_insert_L; [done| |done].
  intros j1 j2 z1 z2 y _ _ _. lia.
Qed.

Lemma max_row_insert (sh : sheet) (k : nat * nat) (x : cell) :
  max_row (<[k := x]> sh) = k.1 `max` max_row sh.
Proof.
  destruct (sh !! k) as [y|] eqn:Hk; [|by apply max_row_insert_fresh].
  rewrite <- (insert_delete_eq sh k x).
  rewrite <- (insert_delete_id sh k y Hk) at 2.
  rewrite !max_row_insert_fresh by apply lookup_delete_eq. lia.
Qed.

Lemma max_row_ge (sh : sheet) (r c : nat) :
  is_Some (sh !! (r, c)) → r ≤ max_row sh.
Proof.
  intros [x Hx]. rewrite <- (insert_id sh (r, c) x Hx).
  rewrite max_row_insert. simpl. lia.
Qed.

Lemma max_row_ge_1 (sh : sheet) : 1 ≤ max_row sh.
Proof.
  unfold max_row.
  apply (map_fold_weak_ind (λ (b : nat) (_ : sheet), 1 ≤ b)); [done|].
  intros k x m r _ Hr. lia.
Qed.

Lemma check_string_Some (v v' : string) :
  check_string v = Some v' →
  v' = take_chars CELL_LIMIT v ∧ has_illegal_character v' = false.
Proof.
  unfold check_string.
  destruct (has_illegal_character (take_chars CELL_LIMIT v)) eqn:E; [done|].
  by intros [= <-].
Qed.

(** A string whose first 32767 characters have no control character is
    accepted, and kept up to there. *)
Lemma check_string_legal (v : string) :
  has_illegal_character (take_chars CELL_LIMIT v) = false →
  check_string v = stored v.
Proof. intros H. unfold check_string. by rewrite H. Qed.

Lemma check_string_illegal (v : string) :
  has_illegal_character (take_chars CELL_LIMIT v) = true →
  check_string v = None.
Proof. intros H. unfold check_string. by rewrite H. Qed.

Lemma set_value_Some (sh sh' : sheet) (r c : nat) (v : string) :
  set_value sh r c v = Some sh' →
  sh' = <[(r, c) := Cell (Some (take_chars CELL_LIMIT v))
                         (sh !! (r, c) ≫= fill)]> sh.
Proof.
  unfold set_value. destruct (check_string v) as [v'|] eqn:E; [|done].
  apply check_string_Some in E as [-> _]. by intros [= <-].
Qed.

Lemma set_value_legal (sh : sheet) (r c : nat) (v : string) :
  has_illegal_character (take_chars CELL_LIMIT v) = false →
  is_Some (set_value sh r c v).
Proof.
  intros H. unfold set_value. rewrite check_string_legal by done.
  by eexists.
Qed.

Lemma max_row_set_value (sh sh' : sheet) (r c : nat) (v : string) :
  set_value sh r c v = Some sh' → max_row sh' = r `max` max_row sh.
Proof. intros ->%set_value_Some. by rewrite max_row_insert. Qed.

Lemma lookup_set_value_ne (sh sh' : sheet) (r c r' c' : nat) (v : string) :
  set_value sh r c v = Some sh' → (r, c) ≠ (r', c') →
  sh' !! (r', c') = sh !! (r', c').
Proof. intros ->%set_value_Some Hne. by rewrite lookup_insert_ne. Qed.

Lemma cell_value_set_value_eq (sh sh' : sheet) (r c : nat) (v : string) :
  set_value sh r c v = Some sh' → cell_value sh' r c = stored v.
Proof.
  intros ->%set_value_Some. unfold cell_value. by rewrite lookup_insert_eq.
Qed.

Lemma cell_value_set_value_ne (sh sh' : sheet) (r c r' c' : nat)
    (v : string) :
  set_value sh r c v = Some sh' → (r, c) ≠ (r', c') →
  cell_value sh' r' c' = cell_value sh r' c'.
Proof.
  intros H Hne. unfold cell_value. by rewrite (lookup_set_value_ne _ _ _ _ _ _ _ H).
Qed.

(** A cell above the last row is empty. *)
Lemma cell_value_above (sh : sheet) (r c : nat) :
  max_row sh < r → cell_value sh r c = None.
Proof.
  intros Hr. unfold cell_value.
  destruct (sh !! (r, c)) as [x|] eqn:Hx; [|done].
  assert (r ≤ max_row sh) by (by eapply max_row_ge). lia.
Qed.

(** The file that is created has the header row. *)
Lemma header_cells_written : header_cells = Some header_sheet.
Proof. by vm_compute. Qed.

Lemma create_excel_file_with_headers_cells :
  create_excel_file_with_headers = header_sheet.
Proof. unfold create_excel_file_with_headers. by rewrite header_cells_written. Qed.

Lemma max_row_loaded_None : max_row (loaded None) = 1.
Proof. by vm_compute. Qed.

(** ** Writer *)

Lemma for_each_app {A St} (body : St → A → option St) (l1 l2 : list A)
    (st : St) :
  for_each body (l1 ++ l2) st
  = match for_each body l1 st with
    | Some st' => for_each body l2 st'
    | None => None
    end.
Proof.
  revert st. induction l1 as [|x l1 IH]; intros st; simpl; [done|].
  by destruct (body st x).
Qed.

(** What holds before a loop and is kept by every run of its body that
    does not raise, holds after the loop when it does not raise. *)
Lemma for_each_inv {A St} (P : St → Prop) (body : St → A → option St)
    (l : list A) (st st' : St) :
  (∀ x s s', x ∈ l → P s → body s x = Some s' → P s') →
  P st → for_each body l st = Some st' → P st'.
Proof.
  revert st. induction l as [|x l IH]; intros st Hbody Hst; simpl.
  - by intros [= <-].
  - destruct (body st x) as [st1|] eqn:E; [|done].
    apply IH.
    + intros y s s' Hy. apply Hbody. by right.
    + eapply Hbody; [by left|exact Hst|exact E].
Qed.

Lemma row_cells_values (sh : sheet) (r : nat)
    (v1 v2 v3 v4 v5 v6 : option string) :
  row_cells sh r = [v1; v2; v3; v4; v5; v6] →
  cell_value sh r 1 = v1 ∧ cell_value sh r 2 = v2 ∧ cell_value sh r 3 = v3
  ∧ cell_value sh r 4 = v4 ∧ cell_value sh r 5 = v5 ∧ cell_value sh r 6 = v6.
Proof. intros [= -> -> -> -> -> ->]. by repeat split. Qed.

Lemma write_row_Some (sh sh' : sheet) (row : nat) (author : string)
    (affiliations : list string) (session title abstract : string) :
  write_row sh row author affiliations session title abstract = Some sh' →
  ∃ s1 s2 s3 s4 s5,
    set_value sh row 1 author = Some s1
    ∧ set_value s1 row 2 (join ", " affiliations) = Some s2
    ∧ set_value s2 row 3 session = Some s3
    ∧ set_value s3 row 4 EmptyString = Some s4
    ∧ set_value s4 row 5 title = Some s5
    ∧ set_value s5 row 6 abstract = Some sh'.
Proof.
  unfold write_row. intros H.
  destruct (set_value sh row 1 author) as [s1|] eqn:E1; [|done]. cbn [mbind option_bind] in H.
  destruct (set_value s1 row 2 _) as [s2|] eqn:E2; [|done]. cbn [mbind option_bind] in H.
  destruct (set_value s2 row 3 session) as [s3|] eqn:E3; [|done]. cbn [mbind option_bind] in H.
  destruct (set_value s3 row 4 EmptyString) as [s4|] eqn:E4; [|done]. cbn [mbind option_bind] in H.
  destruct (set_value s4 row 5 title) as [s5|] eqn:E5; [|done]. cbn [mbind option_bind] in H.
  by exists s1, s2, s3, s4, s5.
Qed.

Lemma write_row_spec (sh sh' : sheet) (row : nat) (author : string)
    (affiliations : list string) (session title abstract : string) :
  write_row sh row author affiliations session title abstract = Some sh' →
  max_row sh' = row `max` max_row sh
  ∧ row_cells sh' row
    = [stored author; stored (join ", " affiliations); stored session;
       stored EmptyString; stored title; stored abstract]
  ∧ ∀ r c, r ≠ row → sh' !! (r, c) = sh !! (r, c).
Proof.
  intros (s1 & s2 & s3 & s4 & s5 & E1 & E2 & E3 & E4 & E5 & E6)%write_row_Some.
  split; [|split].
  - rewrite (max_row_set_value _ _ _ _ _ E6), (max_row_set_value _ _ _ _ _ E5),
      (max_row_set_value _ _ _ _ _ E4), (max_row_set_value _ _ _ _ _ E3),
      (max_row_set_value _ _ _ _ _ E2), (max_row_set_value _ _ _ _ _ E1).
    lia.
  - unfold row_cells. cbn [fmap list_fmap]. repeat f_equal.
    + rewrite (cell_value_set_value_ne _ _ _ _ _ _ _ E6) by congruence.
      rewrite (cell_value_set_value_ne _ _ _ _ _ _ _ E5) by congruence.
      rewrite (cell_value_set_value_ne _ _ _ _ _ _ _ E4) by congruence.
      rewrite (cell_value_set_value_ne _ _ _ _ _ _ _ E3) by congruence.
      rewrite (cell_value_set_value_ne _ _ _ _ _ _ _ E2) by congruence.
      exact (cell_value_set_value_eq _ _ _ _ _ E1).
    + rewrite (cell_value_set_value_ne _ _ _ _ _ _ _ E6) by congruence.
      rewrite (cell_value_set_value_ne _ _ _ _ _ _ _ E5) by congruence.
      rewrite (cell_value_set_value_ne _ _ _ _ _ _ _ E4) by congruence.
      rewrite (cell_value_set_value_ne _ _ _ _ _ _ _ E3) by congruence.
      exact (cell_value_set_value_eq _ _ _ _ _ E2).
    + rewrite (cell_value_set_value_ne _ _ _ _ _ _ _ E6) by congruence.
      rewrite (cell_value_set_value_ne _ _ _ _ _ _ _ E5) by congruence.
      rewrite (cell_value_set_value_ne _ _ _ _ _ _ _ E4) by congruence.
      exact (cell_value_set_value_eq _ _ _ _ _ E3).
    + rewrite (cell_value_set_value_ne _ _ _ _ _ _ _ E6) by congruence.
      rewrite (cell_value_set_value_ne _ _ _ _ _ _ _ E5) by congruence.
      exact (cell_value_set_value_eq _ _ _ _ _ E4).
    + rewrite (cell_value_set_value_ne _ _ _ _ _ _ _ E6) by congruence.
      exact (cell_value_set_value_eq _ _ _ _ _ E5).
    + exact (cell_value_set_value_eq _ _ _ _ _ E6).
  - intros r c Hr.
    rewrite (lookup_set_value_ne _ _ _ _ _ _ _ E6) by congruence.
    rewrite (lookup_set_value_ne _ _ _ _ _ _ _ E5) by congruence.
    rewrite (lookup_set_value_ne _ _ _ _ _ _ _ E4) by congruence.
    rewrite (lookup_set_value_ne _ _ _ _ _ _ _ E3) by congruence.
    rewrite (lookup_set_value_ne _ _ _ _ _ _ _ E2) by congruence.
    by rewrite (lookup_set_value_ne _ _ _ _ _ _ _ E1) by congruence.
Qed.

(** The first assignment is that of the name: a control character in
    what the cell would keep of it ends the row there. *)
Lemma write_row_illegal_name (sh : sheet) (row : nat) (author : string)
    (affiliations : list string) (session title abstract : string) :
  has_illegal_character (take_chars CELL_LIMIT author) = true →
  write_row sh row author affiliations session title abstract = None.
Proof.
  intros H. unfold write_row, set_value.
  by rewrite (check_string_illegal author H).
Qed.

(** Six values without control character are all written. *)
Lemma write_row_legal (sh : sheet) (row : nat) (author : string)
    (affiliations : list string) (session title abstract : string) :
  has_illegal_character (take_chars CELL_LIMIT author) = false →
  has_illegal_character (take_chars CELL_LIMIT (join ", " affiliations))
  = false →
  has_illegal_character (take_chars CELL_LIMIT session) = false →
  has_illegal_character (take_chars CELL_LIMIT title) = false →
  has_illegal_character (take_chars CELL_LIMIT abstract) = false →
  is_Some (write_row sh row author affiliations session title abstract).
Proof.
  intros H1 H2 H3 H5 H6. unfold write_row.
  destruct (set_value_legal sh row 1 author H1) as [s1 ->]. cbn [mbind option_bind].
  destruct (set_value_legal s1 row 2 _ H2) as [s2 ->]. cbn [mbind option_bind].
  destruct (set_value_legal s2 row 3 session H3) as [s3 ->]. cbn [mbind option_bind].
  destruct (set_value_legal s3 row 4 EmptyString eq_refl) as [s4 ->]. cbn [mbind option_bind].
  destruct (set_value_legal s4 row 5 title H5) as [s5 ->]. cbn [mbind option_bind].
  by apply set_value_legal.
Qed.

Lemma save_author_unfold (session title abstract : string)
    (affiliations : list string) (ex : gset (list string)) (sh : sheet)
    (author : string) :
  save_author session title abstract affiliations (ex, sh) author
  = if bool_decide ([session; written_name author] ∈ ex) then Some (ex, sh)
    else
      match write_row sh (max_row sh + 1) (written_name author) affiliations
              session title abstract with
      | Some sh' => Some ({[ [session; written_name author] ]} ∪ ex, sh')
      | None => None
      end.
Proof.
  unfold save_author, write_row, written_name.
  case_bool_decide; [done|].
  destruct (set_value sh _ 1 _) as [s1|]; [|done]. cbn [mbind option_bind].
  destruct (set_value s1 _ 2 _) as [s2|]; [|done]. cbn [mbind option_bind].
  destruct (set_value s2 _ 3 _) as [s3|]; [|done]. cbn [mbind option_bind].
  destruct (set_value s3 _ 4 _) as [s4|]; [|done]. cbn [mbind option_bind].
  destruct (set_value s4 _ 5 _) as [s5|]; [|done]. cbn [mbind option_bind].
  by destruct (set_value s5 _ 6 _).
Qed.

(** The two ways a call of the writer ends: it raises and the file stays
    as it was loaded, or the loop comes through and its sheet is saved. *)
Lemma save_to_excel_file_cases (blocks : list article) (file : option sheet) :
  (for_each save_block blocks (∅, loaded file) = None
   ∧ written_workbook blocks file = None
   ∧ save_to_excel_file blocks file = loaded file)
  ∨ ∃ st,
      for_each save_block blocks (∅, loaded file) = Some st
      ∧ written_workbook blocks file = Some st.2
      ∧ save_to_excel_file blocks file = st.2.
Proof.
  unfold save_to_excel_file, written_workbook.
  destruct (for_each save_block blocks (∅, loaded file)) as [st|].
  - right. by exists st.
  - by left.
Qed.

Lemma save_author_frame (sh0 : sheet) (session title abstract : string)
    (affiliations : list string) (st st' : write_state) (author : string) :
  frame_inv sh0 st →
  save_author session title abstract affiliations st author = Some st' →
  frame_inv sh0 st'.
Proof.
  destruct st as [ex sh]. intros [Hle Hframe].
  rewrite save_author_unfold. case_bool_decide.
  - intros [= <-]. by split.
  - destruct (write_row _ _ _ _ _ _ _) as [sh'|] eqn:E; [|done].
    intros [= <-]. apply write_row_spec in E as (Hmax & _ & Hother).
    cbn [fst snd] in *. split; cbn [fst snd]; [lia|].
    intros r c Hr. rewrite Hother by lia. by apply Hframe.
Qed.

Lemma save_block_frame (sh0 : sheet) (st st' : write_state) (b : article) :
  frame_inv sh0 st → save_block st b = Some st' → frame_inv sh0 st'.
Proof.
  intros Hinv. unfold save_block.
  destruct (already_saved st.1 b); [by intros [= <-]|].
  apply for_each_inv; [|done].
  intros a s s' _. apply save_author_frame.
Qed.

Lemma save_blocks_frame (sh0 : sheet) (blocks : list article)
    (st st' : write_state) :
  frame_inv sh0 st → for_each save_block blocks st = Some st' →
  frame_inv sh0 st'.
Proof.
  intros Hinv. apply for_each_inv; [|done].
  intros b s s' _. apply save_block_frame.
Qed.

(** A call of the writer leaves the rows of the sheet it loaded where
    they were. *)
Lemma save_frame (blocks : list article) (file : option sheet) :
  max_row (loaded file) ≤ max_row (save_to_excel_file blocks file)
  ∧ ∀ r c, r ≤ max_row (loaded file) →
           save_to_excel_file blocks file !! (r, c) = loaded file !! (r, c).
Proof.
  destruct (save_to_excel_file_cases blocks file)
    as [(_ & _ & ->)|(st & E & _ & ->)]; [by split|].
  apply (save_blocks_frame (loaded file) blocks (∅, loaded file)); [|done].
  by split.
Qed.

(** *** One row per session and author *)

Lemma rows_inv_start (sh0 : sheet) : rows_inv sh0 (∅, sh0).
Proof. unfold rows_inv. simpl. repeat split; intros; try done; lia. Qed.

Lemma save_author_inv (sh0 : sheet) (session title abstract : string)
    (affiliations : list string) (st st' : write_state) (author : string) :
  short session → short (written_name author) →
  rows_inv sh0 st →
  save_author session title abstract affiliations st author = Some st' →
  rows_inv sh0 st'.
Proof.
  destruct st as [ex sh]. intros Hs Hn (Hle & Hframe & Hin & Hinj).
  rewrite save_author_unfold. case_bool_decide as Hseen.
  { intros [= <-]. by repeat split. }
  remember (written_name author) as name eqn:Hname.
  remember (max_row sh + 1) as row eqn:Hrow.
  destruct (write_row sh row name affiliations session title abstract)
    as [sh'|] eqn:E; [|done].
  intros [= <-]. apply write_row_spec in E as (Hmax & Hcells & Hother).
  assert (cell_value sh' row 1 = Some name) as Hc1.
  { injection Hcells as -> _. by apply stored_short. }
  assert (cell_value sh' row 3 = Some session) as Hc3.
  { injection Hcells as _ _ -> _. by apply stored_short. }
  clear Hcells. cbn [fst snd] in *.
  assert (max_row sh' = row) as Hmax' by lia.
  assert (∀ r c, r ≠ row → cell_value sh' r c = cell_value sh r c) as Hcv.
  { intros r c Hr. unfold cell_value. by rewrite Hother. }
  unfold rows_inv. cbn [fst snd]. rewrite Hmax'.
  split; [lia|]. split; [|split].
  - intros r c Hr. rewrite Hother by lia. by apply Hframe.
  - intros i Hi. destruct (decide (i = row)) as [Heq|Hne].
    + exists session, name. rewrite Heq. repeat split; [done..|].
      apply elem_of_union. left. by apply elem_of_singleton.
    + destruct (Hin i) as (s & n & H3 & H1 & Hex); [lia|].
      exists s, n. rewrite !Hcv by done. repeat split; [done..|].
      apply elem_of_union. by right.
  - assert (∀ j, max_row sh0 < j ≤ max_row sh →
            cell_value sh' row 3 = cell_value sh' j 3 →
            cell_value sh' row 1 = cell_value sh' j 1 → False) as Hnew.
    { intros j Hj H3 H1. assert (j ≠ row) as Hjr by lia.
      rewrite (Hcv j) in H3, H1 by done. rewrite Hc3 in H3. rewrite Hc1 in H1.
      destruct (Hin j Hj) as (s & n & H3' & H1' & Hex).
      apply Hseen. congruence. }
    intros i j Hi Hj H3 H1.
    destruct (decide (i = row)) as [Hi'|Hi'];
      destruct (decide (j = row)) as [Hj'|Hj']; [congruence| | |].
    + exfalso. rewrite Hi' in H3, H1. apply (Hnew j); [lia|done..].
    + exfalso. rewrite Hj' in H3, H1. apply (Hnew i); [lia|done..].
    + rewrite !Hcv in H3, H1 by done. apply Hinj; [lia|lia|done..].
Qed.

Lemma save_block_inv (sh0 : sheet) (st st' : write_state) (block : article) :
  short_block block → rows_inv sh0 st → save_block st block = Some st' →
  rows_inv sh0 st'.
Proof.
  intros [Hs Hnames] Hinv. unfold save_block.
  destruct (already_saved st.1 block); [by intros [= <-]|].
  apply for_each_inv; [|done].
  intros a s s' Ha. apply save_author_inv; [done|].
  by apply (proj1 (Forall_forall _ _) Hnames).
Qed.

Lemma save_blocks_inv (sh0 : sheet) (blocks : list article)
    (st st' : write_state) :
  Forall short_block blocks → rows_inv sh0 st →
  for_each save_block blocks st = Some st' → rows_inv sh0 st'.
Proof.
  intros Hshort Hinv. apply for_each_inv; [|done].
  intros b s s' Hb. apply save_block_inv.
  by apply (proj1 (Forall_forall _ _) Hshort).
Qed.

(** The row of each of two authors of one block written to a new file:
    each has what the cell keeps of its name. *)
Lemma save_two_authors (n1 n2 : string) :
  startswith_comma n1 = false → startswith_comma n2 = false → n1 ≠ n2 →
  legal n1 → legal n2 →
  let sh := save_to_excel_file
              [Article [n1; n2] [] "S" EmptyString EmptyString] None in
  max_row sh = 3
  ∧ row_cells sh 2
    = [stored n1; stored EmptyString; stored "S"; stored EmptyString;
       stored EmptyString; stored EmptyString]
  ∧ row_cells sh 3
    = [stored n2; stored EmptyString; stored "S"; stored EmptyString;
       stored EmptyString; stored EmptyString].
Proof.
  intros Hc1 Hc2 Hne Hl1 Hl2.
  assert (written_name n1 = n1) as Hw1 by (unfold written_name; by rewrite Hc1).
  assert (written_name n2 = n2) as Hw2 by (unfold written_name; by rewrite Hc2).
  destruct (write_row_legal (loaded None) 2 n1 [] "S" EmptyString EmptyString)
    as [sh1 E1]; [done|by vm_compute..|].
  destruct (write_row_spec _ _ _ _ _ _ _ _ E1) as (M1 & R1 & O1).
  rewrite max_row_loaded_None in M1.
  destruct (write_row_legal sh1 3 n2 [] "S" EmptyString EmptyString)
    as [sh2 E2]; [done|by vm_compute..|].
  destruct (write_row_spec _ _ _ _ _ _ _ _ E2) as (M2 & R2 & O2).
  assert (for_each save_block
            [Article [n1; n2] [] "S" EmptyString EmptyString] (∅, loaded None)
          = Some ({[ ["S"; n2] ]} ∪ ({[ ["S"; n1] ]} ∪ ∅), sh2)) as Hrun.
  { cbn [for_each]. unfold save_block, already_saved.
    cbn [fst snd session authors title abstract affiliations].
    rewrite (bool_decide_eq_false_2 ([n1; n2] ∈ ∅))
      by apply not_elem_of_empty.
    rewrite andb_false_r. cbn [for_each].
    rewrite save_author_unfold, Hw1.
    rewrite (bool_decide_eq_false_2 (["S"; n1] ∈ ∅))
      by apply not_elem_of_empty.
    rewrite max_row_loaded_None. change (1 + 1) with 2. rewrite E1.
    rewrite save_author_unfold, Hw2.
    rewrite bool_decide_eq_false_2.
    2:{ intros [Hin%elem_of_singleton|Hin%not_elem_of_empty]%elem_of_union;
          [|done].
        apply Hne. congruence. }
    rewrite M1. change (2 `max` 1 + 1) with 3. by rewrite E2. }
  assert (save_to_excel_file
            [Article [n1; n2] [] "S" EmptyString EmptyString] None = sh2)
    as Hsave.
  { unfold save_to_excel_file, written_workbook. by rewrite Hrun. }
  cbn zeta. rewrite Hsave. split; [|split].
  - rewrite M2, M1. reflexivity.
  - transitivity (row_cells sh1 2); [|exact R1].
    unfold row_cells, cell_value. cbn [fmap list_fmap].
    by rewrite !O2 by lia.
  - exact R2.
Qed.

Lemma long_names_differ : long_name_x ≠ long_name_y.
Proof. apply String.eqb_neq. by vm_compute. Qed.

Lemma long_names_cut_alike : stored long_name_x = stored long_name_y.
Proof.
  unfold stored. apply (f_equal Some). apply String.eqb_eq. by vm_compute.
Qed.

Lemma long_name_x_cut : stored long_name_x ≠ Some long_name_x.
Proof.
  assert (String.eqb (take_chars CELL_LIMIT long_name_x) long_name_x = false)
    as H by (vm_compute; reflexivity).
  apply String.eqb_neq in H.
  unfold stored. intros Heq. apply H. exact (Some_inj _ _ Heq).
Qed.

(** C4, as stated, fails: two authors of one block whose names differ in
    character 32769 only are two pairs for the writer and get a row each,
    and what the cells keep of the two names, the first 32767 characters,
    is the same. *)
Lemma C4_counterexample_names_cut_alike :
  let blocks :=
    [Article [long_name_x; long_name_y] [] "S" EmptyString EmptyString] in
  let sh := save_to_excel_file blocks None in
  long_name_x ≠ long_name_y
  ∧ max_row (loaded None) = 1 ∧ max_row sh = 3
  ∧ cell_value sh 2 3 = cell_value sh 3 3
  ∧ cell_value sh 2 1 = cell_value sh 3 1.
Proof.
  destruct (save_two_authors long_name_x long_name_y)
    as (Hmax & R2 & R3);
    [by vm_compute|by vm_compute|exact long_names_differ
    |by vm_compute|by vm_compute|].
  cbn zeta.
  split; [exact long_names_differ|]. split; [exact max_row_loaded_None|].
  split; [exact Hmax|].
  apply row_cells_values in R2 as (R21 & _ & R23 & _).
  apply row_cells_values in R3 as (R31 & _ & R33 & _).
  split.
  - by rewrite R23, R33.
  - rewrite R21, R31. exact long_names_cut_alike.
Qed.

(** C4, amended: when the sessions and the written author names have at
    most 32767 characters, in one call of the writer the rows of the sheet
    it starts from stay as they are, and among the rows appended below
    them no two have the same session (column 3) and author name
    (column 1). *)
Theorem C4_appended_rows_have_distinct_session_author
    (blocks : list article) (file : option sheet) :
  Forall short_block blocks →
  let sh0 := loaded file in
  let sh := save_to_excel_file blocks file in
  (∀ r c, r ≤ max_row sh0 → sh !! (r, c) = sh0 !! (r, c))
  ∧ (∀ i, max_row sh0 < i ≤ max_row sh →
       is_Some (cell_value sh i 3) ∧ is_Some (cell_value sh i 1))
  ∧ ∀ i j,
      max_row sh0 < i ≤ max_row sh → max_row sh0 < j ≤ max_row sh →
      cell_value sh i 3 = cell_value sh j 3 →
      cell_value sh i 1 = cell_value sh j 1 →
      i = j.
Proof.
  intros Hshort. cbn zeta.
  destruct (save_to_excel_file_cases blocks file)
    as [(_ & _ & ->)|(st & E & _ & ->)].
  { split; [done|]. split; intros; lia. }
  destruct (save_blocks_inv (loaded file) blocks _ _ Hshort
              (rows_inv_start _) E) as (Hle & Hframe & Hin & Hinj).
  split; [exact Hframe|]. split; [|exact Hinj].
  intros i Hi. destruct (Hin i Hi) as (s & n & -> & -> & _). by split.
Qed.

Lemma C4_witness :
  let sh := save_to_excel_file shared_author_blocks None in
  max_row (loaded None) = 1 ∧ max_row sh = 4
  ∧ ¬ (cell_value sh 2 3 = cell_value sh 3 3
       ∧ cell_value sh 2 1 = cell_value sh 3 1).
Proof.
  assert (Forall short_block shared_author_blocks) as Hshort.
  { repeat constructor; by vm_compute. }
  pose proof (C4_appended_rows_have_distinct_session_author
                shared_author_blocks None Hshort) as (_ & _ & Hinj).
  assert (max_row (loaded None) = 1) as H0 by (by vm_compute).
  assert (max_row (save_to_excel_file shared_author_blocks None) = 4) as H1
    by (by vm_compute).
  simpl. split; [exact H0|]. split; [exact H1|].
  intros [H3 Hname].
  assert (2 = 3) as Heq; [|discriminate Heq].
  apply Hinj.
  - rewrite H0, H1. lia.
  - rewrite H0, H1. lia.
  - exact H3.
  - exact Hname.
Defined.

(** The rows written for these blocks: Dr. Y comes once. *)
Example shared_author_rows :
  let sh := save_to_excel_file shared_author_blocks None in
  (λ i, cell_value sh i 1) <$> [2; 3; 4; 5]
  = [Some "Dr. X"; Some "Dr. Y"; Some "Dr. Z"; None].
Proof. by vm_compute. Qed.

(** *** The header row *)

(** C7: when no file exists at the path, the writer leaves a file whose
    first row has the six headers in columns A to F and nothing after
    them, whatever the records are. *)
Theorem C7_new_file_has_header_row (blocks : list article) :
  let sh := save_to_excel_file blocks None in
  (λ c, cell_value sh 1 c) <$> [1; 2; 3; 4; 5; 6]
  = [Some "Name (incl, titles if any mentioned"; Some "Affiliations";
     Some "Session name"; Some "Persons Location"; Some "Topic Title";
     Some "Presentation Abstract"]
  ∧ ∀ c, cell_value sh 1 (7 + c) = None.
Proof.
  destruct (save_frame blocks None) as [_ Hframe].
  assert (∀ c, cell_value (save_to_excel_file blocks None) 1 c
               = cell_value header_sheet 1 c) as Hrow.
  { intros c. unfold cell_value. rewrite Hframe.
    - unfold loaded. by rewrite create_excel_file_with_headers_cells.
    - by rewrite max_row_loaded_None. }
  cbn zeta. split.
  - cbn [fmap list_fmap]. rewrite !Hrow. by vm_compute.
  - intros c. rewrite !Hrow.
    unfold cell_value, header_sheet.
    rewrite !lookup_insert_ne by (intros [= ?]; lia).
    by rewrite lookup_empty.
Qed.

(** *** The test for a block that was saved before *)

Lemma save_author_existing (session title abstract : string)
    (affiliations : list string) (st st' : write_state) (author : string)
    (x : list string) :
  save_author session title abstract affiliations st author = Some st' →
  x ∈ st'.1 → x ∈ st.1 ∨ x = [session; written_name author].
Proof.
  destruct st as [ex sh]. rewrite save_author_unfold.
  case_bool_decide.
  - intros [= <-]. by left.
  - destruct (write_row _ _ _ _ _ _ _) as [sh'|]; [|done].
    intros [= <-]. cbn [fst].
    intros [Hx%elem_of_singleton|Hx]%elem_of_union; [by right|by left].
Qed.

Lemma save_block_existing (st st' : write_state) (block : article)
    (x : list string) :
  save_block st block = Some st' → x ∈ st'.1 →
  x ∈ st.1 ∨ ∃ a, a ∈ authors block ∧ x = [session block; written_name a].
Proof.
  unfold save_block. destruct (already_saved st.1 block).
  { intros [= <-]. by left. }
  revert st. induction (authors block) as [|a l IH]; intros st; simpl.
  - intros [= <-]. by left.
  - destruct (save_author _ _ _ _ st a) as [st1|] eqn:E; [|done].
    intros Hrest [Hx|(a' & Ha' & ->)]%(IH _ Hrest).
    + apply (save_author_existing _ _ _ _ _ _ _ _ E) in Hx as [Hx| ->];
        [by left|].
      right. exists a. split; [left|done].
    + right. exists a'. split; [by right|done].
Qed.

Lemma save_blocks_existing (pre : list article) (st st' : write_state)
    (x : list string) :
  for_each save_block pre st = Some st' → x ∈ st'.1 →
  x ∈ st.1
  ∨ ∃ b a, b ∈ pre ∧ a ∈ authors b ∧ x = [session b; written_name a].
Proof.
  revert st. induction pre as [|b pre IH]; intros st; simpl.
  { intros [= <-]. by left. }
  destruct (save_block st b) as [st1|] eqn:E; [|done].
  intros Hrest [Hx|(b' & a & Hb' & Ha & ->)]%(IH _ Hrest).
  - apply (save_block_existing _ _ _ _ E) in Hx as [Hx|(a & Ha & ->)];
      [by left|].
    right. exists b, a. split; [left|done].
  - right. exists b', a. split; [by right|done].
Qed.

(** C8, as stated, fails: after a row for session S and author X, a block
    with a session whose two authors are called S and X passes the test
    and is skipped; neither of its authors gets a row. *)
Lemma C8_counterexample_two_authors_match_a_pair :
  let pre := [Article ["X"] [] "S" EmptyString EmptyString] in
  let b := Article ["S"; "X"] [] "T" EmptyString EmptyString in
  already_saved (existing_after pre None) b = true
  ∧ data_rows (save_to_excel_file (pre ++ [b]) None) = 1.
Proof. by vm_compute. Qed.

(** C8, amended: the test of line 138 holds only for a block with a
    session and with exactly two authors, the first equal to the session
    and the second to the written name of an author of an earlier block of
    the same call; for every other block it fails. *)
Theorem C8_skip_needs_two_authors_matching_a_pair (pre : list article)
    (file : option sheet) (b : article) :
  already_saved (existing_after pre file) b = true →
  session b ≠ EmptyString
  ∧ ∃ b' a, b' ∈ pre ∧ a ∈ authors b'
            ∧ authors b = [session b'; written_name a].
Proof.
  unfold already_saved, existing_after.
  intros [Hs Hin%bool_decide_eq_true]%andb_true_iff.
  split; [by apply truthy_str_true|].
  destruct (for_each save_block pre (∅, loaded file)) as [st|] eqn:E;
    [|by apply not_elem_of_empty in Hin].
  apply (save_blocks_existing _ _ _ _ E) in Hin as [Hin|Hin]; [|done].
  by apply not_elem_of_empty in Hin.
Qed.

Lemma C8_witness :
  let pre := [Article ["X"] [] "S" EmptyString EmptyString] in
  let b := Article ["S"; "X"] [] "T" EmptyString EmptyString in
  session b ≠ EmptyString
  ∧ ∃ b' a, b' ∈ pre ∧ a ∈ authors b'
            ∧ authors b = [session b'; written_name a].
Proof.
  apply (C8_skip_needs_two_authors_matching_a_pair
           [Article ["X"] [] "S" EmptyString EmptyString] None
           (Article ["S"; "X"] [] "T" EmptyString EmptyString)).
  by vm_compute.
Defined.

(** *** The leading comma of an author *)

Lemma startswith_comma_spec (s : string) :
  startswith_comma s = true ↔ ∃ rest, s = "," +:+ rest.
Proof.
  unfold startswith_comma. destruct s as [|c s]; cbn -[Ascii.ascii_dec].
  - split; [done|]. by intros [rest Hrest].
  - destruct (Ascii.ascii_dec _ c) as [<-|Hne].
    + split; [|by destruct s]. intros _. by exists s.
    + split; [done|]. intros [rest [= Hc _]]. by destruct Hne.
Qed.

Lemma written_name_spec (author name : string) :
  (∃ ch, is_char ch ∧ at_boundary name ∧ author = "," +:+ ch +:+ name)
  ∨ (author = "," ∧ name = EmptyString)
  ∨ ((∀ rest, author ≠ "," +:+ rest) ∧ name = author) →
  written_name author = name.
Proof.
  unfold written_name.
  intros [(ch & Hch & Hname & ->)|[[-> ->]|[Hno ->]]]; [|done|].
  - rewrite (proj2 (startswith_comma_spec _)) by (by eexists).
    by apply slice_from_comma.
  - destruct (startswith_comma author) eqn:E; [|done].
    apply startswith_comma_spec in E as [rest ->]. by destruct (Hno rest).
Qed.

(** C10, as stated, fails for the author strings that do not start with
    a comma: one with a control character is not written at all, the
    assignment to column 1 raises and the call ends without a row; one of
    more than 32767 characters is written cut to its first 32767. *)
Lemma C10_counterexample_name_not_written_unchanged :
  let raised := [Article [control_name] [] "S" EmptyString EmptyString] in
  let cut :=
    [Article [long_name_x; long_name_y] [] "S" EmptyString EmptyString] in
  startswith_comma control_name = false
  ∧ written_workbook raised None = None
  ∧ data_rows (save_to_excel_file raised None) = 0
  ∧ startswith_comma long_name_x = false
  ∧ cell_value (save_to_excel_file cut None) 2 1 ≠ Some long_name_x.
Proof.
  cbn zeta. do 4 (split; [by vm_compute|]).
  destruct (save_two_authors long_name_x long_name_y)
    as (_ & R2 & _);
    [by vm_compute|by vm_compute|exact long_names_differ
    |by vm_compute|by vm_compute|].
  apply row_cells_values in R2 as (-> & _). exact long_name_x_cut.
Qed.

(** C10, amended: an author that starts with a comma loses its first two
    characters, the comma and the character after it, whatever that one
    is and however many bytes it takes (a lone comma becomes the empty
    name); any other author is taken as it is.  The name so obtained is
    the one looked up in [existing_authors].  When the pair is there, the
    author is passed over.  When it is not, the assignment of the name to
    column 1 of the new row raises if a control character is among the
    first 32767 characters of the name; the six assignments come through
    if no value has one; and when they come through the pair is recorded
    and column 1 of the new row has the first 32767 characters of the
    name. *)
Theorem C10_leading_comma_drops_two_characters
    (session title abstract : string) (affiliations : list string)
    (ex : gset (list string)) (sh : sheet) (author name : string) :
  (∃ ch, is_char ch ∧ at_boundary name ∧ author = "," +:+ ch +:+ name)
  ∨ (author = "," ∧ name = EmptyString)
  ∨ ((∀ rest, author ≠ "," +:+ rest) ∧ name = author) →
  let r := save_author session title abstract affiliations (ex, sh) author in
  ([session; name] ∈ ex → r = Some (ex, sh))
  ∧ ([session; name] ∉ ex →
       (¬ legal name → r = None)
       ∧ (legal name → legal (join ", " affiliations) → legal session →
          legal title → legal abstract → is_Some r)
       ∧ ∀ st', r = Some st' →
           st'.1 = {[ [session; name] ]} ∪ ex
           ∧ max_row st'.2 = max_row sh + 1
           ∧ cell_value st'.2 (max_row sh + 1) 1 = stored name).
Proof.
  intros Hname%written_name_spec r. subst r.
  rewrite save_author_unfold, Hname.
  split; intros Hin.
  - by rewrite bool_decide_eq_true_2.
  - rewrite bool_decide_eq_false_2 by done. split; [|split].
    + intros Hill%not_false_iff_true.
      by rewrite write_row_illegal_name.
    + intros H1 H2 H3 H5 H6.
      destruct (write_row_legal sh (max_row sh + 1) name affiliations session
                  title abstract H1 H2 H3 H5 H6) as [sh' ->].
      by eexists.
    + intros st'.
      destruct (write_row _ _ _ _ _ _ _) as [sh'|] eqn:E; [|done].
      intros [= <-]. apply write_row_spec in E as (Hmax & Hcells & _).
      cbn [fst snd]. split; [done|]. split; [lia|].
      by injection Hcells as -> _.
Qed.

Lemma C10_witness :
  ∃ st',
    save_author "Session 1" "Talk A" EmptyString [] (∅, header_sheet)
      ",éDr. Y" = Some st'
    ∧ st'.1 = {[ ["Session 1"; "Dr. Y"] ]} ∪ ∅
    ∧ max_row st'.2 = max_row header_sheet + 1
    ∧ cell_value st'.2 (max_row header_sheet + 1) 1 = Some "Dr. Y".
Proof.
  destruct (C10_leading_comma_drops_two_characters "Session 1" "Talk A"
              EmptyString [] ∅ header_sheet ",éDr. Y" "Dr. Y")
    as [_ Hnew].
  - left. exists "é". split; [|split; reflexivity].
    do 2 eexists. split; [reflexivity|]. split; reflexivity.
  - destruct (Hnew (not_elem_of_empty _)) as (_ & Htotal & Hrow).
    destruct Htotal as [st' E]; [reflexivity..|].
    exists st'. split; [exact E|]. exact (Hrow st' E).
Defined.

(** ** End to end *)

(** C1, as stated, fails for the program: with its start page 44 it reads
    no page of a document of two pages and adds no data row; started at
    page 1 it would add two, the second call of the writer in line 199
    writing the record once more. *)
Lemma C1_counterexample_program_rows :
  (data_rows <$> main synthetic_pdf None = Some 0)
  ∧ (data_rows <$> main_from 1 synthetic_pdf None = Some 2)
  ∧ (data_rows <$> main synthetic_pdf None ≠ Some 1)
  ∧ (data_rows <$> main_from 1 synthetic_pdf None ≠ Some 1).
Proof.
  assert (data_rows <$> main synthetic_pdf None = Some 0) as H0
    by (by vm_compute).
  assert (data_rows <$> main_from 1 synthetic_pdf None = Some 2) as H1
    by (by vm_compute).
  rewrite H0, H1. repeat split; congruence.
Qed.

(** C1, amended: from page 1 of that document the extractor yields one
    record, session "Session 1", title "Talk A", authors "Dr. X" alone,
    nothing else; the merger returns that record; one call of the writer
    with it, no spreadsheet being there, leaves the header row and one
    data row, with the name, the session and the title of the talk.  The
    program itself starts at page 44 and adds no data row for a document
    of two pages. *)
Theorem C1_synthetic_pdf_one_record_one_row :
  to_list (extract_information_from_pdf synthetic_pdf 1) []
  = Some ([talk_a], [0])
  ∧ merge_information_blocks (extract_information_from_pdf synthetic_pdf 1) []
    = Some ([talk_a], [0])
  ∧ data_rows (save_to_excel_file [talk_a] None) = 1
  ∧ (λ c, cell_value (save_to_excel_file [talk_a] None) 2 c)
      <$> [1; 2; 3; 4; 5; 6]
    = [Some "Dr. X"; Some EmptyString; Some "Session 1"; Some EmptyString;
       Some "Talk A"; Some EmptyString]
  ∧ data_rows <$> main synthetic_pdf None = Some 0.
Proof. repeat split; by vm_compute. Qed.

(** * Further properties *)

(** ** The pages the generator reads *)

Lemma range_nil (lo hi : Z) : (hi ≤ lo)%Z → range lo hi = [].
Proof. intros H. unfold range. by replace (Z.to_nat (hi - lo)) with 0 by lia. Qed.

Lemma range_cons (lo hi : Z) :
  (lo < hi)%Z → range lo hi = lo :: range (lo + 1) hi.
Proof.
  intros H. unfold range.
  replace (Z.to_nat (hi - lo)) with (S (Z.to_nat (hi - (lo + 1)))) by lia.
  cbn [seq fmap list_fmap]. f_equal; [lia|].
  rewrite <- fmap_S_seq, <- list_fmap_compose.
  apply list_fmap_ext. intros i x _. simpl. lia.
Qed.

Lemma load_page_in_range (file : pdf) (pn : Z) :
  (0 ≤ pn < page_count file)%Z → load_page file pn = file !! Z.to_nat pn.
Proof.
  intros H. unfold load_page.
  destruct (page_count file =? 0)%Z eqn:E; [lia|].
  by rewrite Z.mod_small by lia.
Qed.

Lemma extract_blocks_app {T} (body : loop_body T) (l1 l2 : list block)
    (st : gen_state) :
  extract_blocks body st (l1 ++ l2)
  = match extract_blocks body st l1 with
    | Some st' => extract_blocks body st' l2
    | None => None
    end.
Proof.
  revert st. induction l1 as [|b l1 IH]; intros st; simpl; [done|].
  by destruct (extract_block body st b).
Qed.

(** From a page of the document on, the page loop is one scan over the
    blocks of the remaining pages. *)
Lemma extract_pages_range {T} (body : loop_body T) (file : pdf) (n : nat) :
  ∀ (lo : Z) (st : gen_state),
    (0 ≤ lo)%Z → Z.to_nat (page_count file - lo) = n →
    extract_pages body file st (range lo (page_count file))
    = extract_blocks body st (mjoin (drop (Z.to_nat lo) file)).
Proof.
  induction n as [|n IH]; intros lo st Hlo Hn.
  - rewrite range_nil by lia. rewrite drop_ge; [done|].
    unfold page_count in Hn. lia.
  - rewrite range_cons by lia. cbn [extract_pages].
    rewrite load_page_in_range by lia.
    destruct (file !! Z.to_nat lo) as [pg|] eqn:Hpg.
    + rewrite (drop_S _ _ _ Hpg). cbn [mjoin list_join].
      rewrite extract_blocks_app.
      destruct (extract_blocks body st pg) as [st'|]; [|done].
      rewrite IH by lia. by replace (Z.to_nat (lo + 1)) with (S (Z.to_nat lo)) by lia.
    + apply lookup_ge_None in Hpg. unfold page_count in Hn. lia.
Qed.

(** X1: from a start page of 1 or more, the generator is one scan over
    the blocks of the pages from that page to the last, in order;
    [previous_article] goes from one page to the next, and the pages
    before the start page are not looked at. *)
Theorem extract_scans_blocks_from_start_page {T} (body : loop_body T)
    (file : pdf) (start_page : Z) (h : heap) (t : T) :
  (1 ≤ start_page)%Z →
  extract_information_from_pdf file start_page T body h t
  = match extract_blocks body (h, t, None)
            (mjoin (drop (Z.to_nat (start_page - 1)) file)) with
    | Some (h', t', _) => Some (h', t')
    | None => None
    end.
Proof.
  intros Hsp. unfold extract_information_from_pdf.
  by rewrite (extract_pages_range body file
                (Z.to_nat (page_count file - (start_page - 1)))) by lia.
Qed.

Lemma extract_scans_blocks_from_start_page_witness :
  to_list (extract_information_from_pdf
             [[unrecognised_block]; [talk_block]; [title_block]] 2) []
  = match extract_blocks collect ([], [], None) [talk_block; title_block] with
    | Some (h', t', _) => Some (h', t')
    | None => None
    end.
Proof.
  apply (extract_scans_blocks_from_start_page collect
           [[unrecognised_block]; [talk_block]; [title_block]] 2 [] []).
  lia.
Defined.

Lemma extract_past_the_end {T} (body : loop_body T) (file : pdf)
    (start_page : Z) (h : heap) (t : T) :
  (page_count file < start_page)%Z →
  extract_information_from_pdf file start_page T body h t = Some (h, t).
Proof.
  intros Hsp. unfold extract_information_from_pdf.
  by rewrite range_nil by lia.
Qed.

Lemma extract_blocks_missing_lines {T} (body : loop_body T)
    (pre post : list block) (b : block) (st : gen_state) :
  block_lines b = None → extract_blocks body st (pre ++ b :: post) = None.
Proof.
  intros Hb. rewrite extract_blocks_app.
  destruct (extract_blocks body st pre) as [[[h t] prev]|]; [|done].
  simpl. by rewrite Hb.
Qed.

(** X2: a block without lines (an image block) on the start page or on a
    later page makes the generator raise, whatever the consumer is, and the
    program ends without a spreadsheet written. *)
Theorem extract_raises_on_block_without_lines (file : pdf) (start_page : Z)
    (k : nat) (pg : page) (b : block) (result : option sheet) :
  (1 ≤ start_page)%Z → Z.to_nat (start_page - 1) ≤ k →
  file !! k = Some pg → b ∈ pg → block_lines b = None →
  (∀ T (body : loop_body T) h t,
     extract_information_from_pdf file start_page T body h t = None)
  ∧ main_from start_page file result = None.
Proof.
  intros Hsp Hk Hpg Hb Hlines.
  assert (∀ T (body : loop_body T) h t,
            extract_information_from_pdf file start_page T body h t = None)
    as Hraise.
  { intros T body h t.
    unfold extract_information_from_pdf.
    rewrite (extract_pages_range body file
               (Z.to_nat (page_count file - (start_page - 1)))) by lia.
    assert (b ∈ mjoin (drop (Z.to_nat (start_page - 1)) file)) as Hin.
    { apply list_elem_of_join. exists pg. split; [done|].
      apply list_elem_of_lookup. exists (k - Z.to_nat (start_page - 1)).
      rewrite lookup_drop. by replace (Z.to_nat (start_page - 1)
        + (k - Z.to_nat (start_page - 1))) with k by lia. }
    apply list_elem_of_split in Hin as (pre & post & ->).
    by rewrite extract_blocks_missing_lines. }
  split; [exact Hraise|].
  unfold main_from, merge_information_blocks. by rewrite Hraise.
Qed.

Lemma extract_raises_on_block_without_lines_witness :
  (∀ T (body : loop_body T) h t,
     extract_information_from_pdf [[talk_block]; [Block 1 None]] 1 T body h t
     = None)
  ∧ main_from 1 [[talk_block]; [Block 1 None]] None = None.
Proof.
  apply (extract_raises_on_block_without_lines
           [[talk_block]; [Block 1 None]] 1 1 [Block 1 None] (Block 1 None)).
  - lia.
  - simpl. lia.
  - reflexivity.
  - by left.
  - reflexivity.
Defined.

Lemma max_row_set_fill (sh : sheet) (r c : nat) (f : string) :
  max_row (set_fill sh r c f) = r `max` max_row sh.
Proof. unfold set_fill. by rewrite max_row_insert. Qed.

Lemma max_row_fill_header_row (sh : sheet) :
  max_row (fill_header_row sh) = max_row sh.
Proof.
  unfold fill_header_row. simpl. rewrite !max_row_set_fill.
  pose proof (max_row_ge_1 sh). lia.
Qed.

(** X3: for a document with fewer pages than the start page of the entry
    point (44), the program reads no page: it leaves the spreadsheet it
    found, or the new one with the header row, with the header fill and
    without a row added. *)
Theorem main_short_document_adds_no_row (book : pdf) (result : option sheet) :
  (page_count book < start_page)%Z →
  main book result = Some (fill_header_row (loaded result))
  ∧ (max_row <$> main book result) = Some (max_row (loaded result)).
Proof.
  intros Hshort.
  assert (main book result = Some (fill_header_row (loaded result))) as ->.
  { unfold main, main_from, merge_information_blocks.
    rewrite extract_past_the_end by done. by destruct result. }
  split; [done|]. simpl. by rewrite max_row_fill_header_row.
Qed.

Lemma main_short_document_adds_no_row_witness :
  main synthetic_pdf None
  = Some (fill_header_row (loaded None))
  ∧ (max_row <$> main synthetic_pdf None) = Some (max_row (loaded None)).
Proof.
  apply (main_short_document_adds_no_row synthetic_pdf None).
  by vm_compute.
Defined.

(** ** What a block is read into *)

Lemma texts_of_cons_True (r : role) (sp : span) (l : list span) :
  rule r sp → texts_of r (sp :: l) = span_text sp :: texts_of r l.
Proof. intros H. unfold texts_of. by rewrite filter_cons_True. Qed.

Lemma texts_of_cons_False (r : role) (sp : span) (l : list span) :
  ¬ rule r sp → texts_of r (sp :: l) = texts_of r l.
Proof. intros H. unfold texts_of. by rewrite filter_cons_False. Qed.

Lemma other_rule_False (r r' : role) (sp : span) :
  rule r sp → r' ≠ r → ¬ rule r' sp.
Proof. intros Hr Hne Hr'. apply Hne. by apply (rule_exclusive sp). Qed.

Lemma concat_str_cons (s : string) (l : list string) :
  concat_str (s :: l) = s +:+ concat_str l.
Proof. reflexivity. Qed.

Lemma add_spans_fields (spans : list span) (cur : article) :
  fold_left add_span spans cur
  = Article (authors cur ++ texts_of Authors spans)
            (affiliations cur ++ texts_of Affiliations spans)
            (session cur +:+ concat_str (texts_of SessionLabel spans))
            (title cur +:+ concat_str (texts_of Title spans))
            (abstract cur +:+ concat_str (texts_of Abstract spans)).
Proof.
  revert cur. induction spans as [|sp spans IH]; intros cur.
  - unfold texts_of, concat_str. simpl.
    rewrite !app_nil_r, !string_app_nil_r. by destruct cur.
  - cbn [fold_left]. rewrite IH.
    destruct (rule_or_none sp) as [[r Hr]|Hno].
    + rewrite (add_span_rule cur sp r Hr).
      destruct r;
        rewrite (texts_of_cons_True _ sp spans Hr);
        rewrite !(texts_of_cons_False _ sp spans)
          by (apply (other_rule_False _ _ sp Hr); discriminate);
        rewrite ?concat_str_cons; simpl;
        by rewrite ?string_app_assoc, <- ?app_assoc.
    + rewrite (add_span_no_rule cur sp Hno).
      by rewrite !(texts_of_cons_False _ sp spans) by apply Hno.
Qed.

Lemma add_lines_spans (lines : list line) (cur : article) :
  fold_left add_line lines cur = fold_left add_span (block_spans lines) cur.
Proof.
  revert cur. induction lines as [|ln lines IH]; intros cur; [done|].
  unfold block_spans. cbn [fold_left fmap list_fmap mjoin list_join].
  rewrite fold_left_app. apply IH.
Qed.

(** X4: the dictionary read from a block has, for each role, the texts of
    the spans of that role in reading order, across the lines of the
    block: session, title and abstract as one string, authors and
    affiliations as lists; spans of no role leave no trace. *)
Theorem read_block_collects_texts_by_role (lines : list line) :
  read_block lines
  = Article (texts_of Authors (block_spans lines))
            (texts_of Affiliations (block_spans lines))
            (concat_str (texts_of SessionLabel (block_spans lines)))
            (concat_str (texts_of Title (block_spans lines)))
            (concat_str (texts_of Abstract (block_spans lines))).
Proof.
  unfold read_block. by rewrite add_lines_spans, add_spans_fields.
Qed.

Lemma read_block_unrecognised (lines : list line) :
  Forall (λ sp, ∀ r, ¬ rule r sp) (block_spans lines) →
  read_block lines = new_article.
Proof.
  intros Hno. unfold read_block. rewrite add_lines_spans.
  induction Hno as [|sp spans Hsp _ IH]; [done|].
  cbn [fold_left]. by rewrite add_span_no_rule.
Qed.

(** X5: for a block with lines none of whose spans has a role, the
    generator yields nothing (the consumer does not run), but it puts the
    block's empty dictionary on the heap and makes it [previous_article],
    whatever the type of the block. *)
Theorem extract_block_without_role_yields_nothing {T} (body : loop_body T)
    (h : heap) (t : T) (prev : option ref) (b : block) (lines : list line) :
  block_lines b = Some lines →
  Forall (λ sp, ∀ r, ¬ rule r sp) (block_spans lines) →
  extract_block body (h, t, prev) b
  = Some (h ++ [new_article], t, Some (length h)).
Proof.
  intros Hlines Hno. unfold extract_block, alloc. rewrite Hlines.
  rewrite (read_block_unrecognised lines Hno).
  pose proof (deref_alloc_new h new_article) as Hnew.
  unfold alloc in Hnew. simpl in Hnew. simpl. rewrite Hnew. simpl.
  by destruct (block_type b =? 0)%Z.
Qed.

Lemma extract_block_without_role_yields_nothing_witness :
  extract_block collect ([talk_a], [0], Some 0) unrecognised_block
  = Some ([talk_a] ++ [new_article], [0], Some (length [talk_a])).
Proof.
  apply (extract_block_without_role_yields_nothing collect [talk_a] [0]
           (Some 0) unrecognised_block [Line [Span "Helvetica" 12 "7"]]).
  - reflexivity.
  - repeat constructor.
    intros r. destruct r; simpl; try (intros [H _]; discriminate H);
      intros H; vm_compute in H; discriminate H.
Defined.

(** ** What the generator yields and what it leaves alone *)

Lemma extract_block_collect (h : heap) (out : list ref) (prev : option ref)
    (b : block) (lines : list line) :
  block_lines b = Some lines →
  ∃ h' r,
    extract_block collect (h, out, prev) b
    = Some (h', if yields b then out ++ [r] else out, Some r)
    ∧ length h' = S (length h)
    ∧ (h' = h ++ [read_block lines]
       ∨ ∃ p, prev = Some p
              ∧ h' = merge_continuation (h ++ [read_block lines]) p (length h)).
Proof.
  intros Hlines. unfold extract_block, yields, alloc. rewrite Hlines.
  pose proof (deref_alloc_new h (read_block lines)) as Hnew.
  unfold alloc in Hnew. simpl in Hnew. simpl. rewrite Hnew.
  assert (length (h ++ [read_block lines]) = S (length h)) as Hlen.
  { rewrite length_app. simpl. lia. }
  destruct (block_type b =? 0)%Z; simpl; [|by eauto 6].
  destruct (has_content (read_block lines)); simpl; [|by eauto 6].
  destruct (negb (truthy_str (session (read_block lines)))); [|by eauto 6].
  destruct prev as [p|]; [|by eauto 6].
  eexists _, p. split; [reflexivity|].
  rewrite length_merge_continuation. split; [done|]. right. by exists p.
Qed.

(** X6: over blocks that all have lines the generator does not raise; it
    puts one dictionary on the heap for every block and yields once for
    every text block with content, and for no other block. *)
Theorem extract_yields_once_per_text_block_with_content (h : heap)
    (out : list ref) (prev : option ref) (bs : list block) :
  Forall (λ b, is_Some (block_lines b)) bs →
  ∃ h' out' prev',
    extract_blocks collect (h, out, prev) bs = Some (h', out', prev')
    ∧ length h' = length h + length bs
    ∧ length out' = length out + length (filter (λ b, yields b = true) bs).
Proof.
  intros Hlines. revert h out prev.
  induction Hlines as [|b bs [lines Hb] _ IH]; intros h out prev.
  - exists h, out, prev. simpl. repeat split; lia.
  - destruct (extract_block_collect h out prev b lines Hb)
      as (h1 & r & E1 & Hlen1 & _).
    destruct (IH h1 (if yields b then out ++ [r] else out) (Some r))
      as (h' & out' & prev' & E' & Hlen' & Hout').
    exists h', out', prev'. cbn [extract_blocks]. rewrite E1.
    split; [exact E'|]. split; [simpl; lia|].
    rewrite Hout', filter_cons.
    destruct (yields b); simpl; [rewrite length_app; simpl; lia|lia].
Qed.

Lemma extract_yields_once_per_text_block_with_content_witness :
  ∃ h' out' prev',
    extract_blocks collect ([], [], None)
      [talk_block; unrecognised_block; title_block]
    = Some (h', out', prev')
    ∧ length h' = 0 + 3
    ∧ length out' = 0 + 2.
Proof.
  apply (extract_yields_once_per_text_block_with_content [] [] None
           [talk_block; unrecognised_block; title_block]).
  repeat constructor; by eexists.
Defined.

Lemma extends_refl (a : article) : extends a a.
Proof.
  repeat split; [exists EmptyString|exists []|exists EmptyString].
  - by rewrite string_app_nil_r.
  - by rewrite app_nil_r.
  - by rewrite string_app_nil_r.
Qed.

Lemma extends_trans (a b c : article) : extends a b → extends b c → extends a c.
Proof.
  intros (Hs1 & Ha1 & [t1 Ht1] & [l1 Hl1] & [x1 Hx1])
         (Hs2 & Ha2 & [t2 Ht2] & [l2 Hl2] & [x2 Hx2]).
  repeat split; [congruence|congruence|..].
  - exists (t1 +:+ t2). by rewrite Ht2, Ht1, string_app_assoc.
  - exists (l1 ++ l2). by rewrite Hl2, Hl1, app_assoc.
  - exists (x1 +:+ x2). by rewrite Hx2, Hx1, string_app_assoc.
Qed.

Lemma extends_absorb (a b : article) : extends a (absorb a b).
Proof. unfold absorb. repeat split; simpl; eauto. Qed.

Lemma extract_block_extends (h h' : heap) (out out' : list ref)
    (prev prev' : option ref) (b : block) :
  (∀ p, prev = Some p → p < length h) →
  extract_block collect (h, out, prev) b = Some (h', out', prev') →
  length h ≤ length h'
  ∧ (∀ p, prev' = Some p → p < length h')
  ∧ ∀ r, r < length h → extends (deref h r) (deref h' r).
Proof.
  intros Hprev E.
  destruct (block_lines b) as [lines|] eqn:Hlines.
  2:{ unfold extract_block in E. by rewrite Hlines in E. }
  destruct (extract_block_collect h out prev b lines Hlines)
    as (h1 & r1 & E1 & Hlen1 & Hheap).
  pose proof (extract_block_allocated collect (h, out, prev) _ b
                collect_keeps_heap Hprev E1) as Hal.
  rewrite E1 in E. injection E as <- <- <-.
  split; [lia|]. split; [exact Hal|].
  intros r Hr. destruct Hheap as [->|(p & -> & ->)].
  - unfold deref. rewrite lookup_total_app_l by done. apply extends_refl.
  - specialize (Hprev p eq_refl).
    destruct (merge_continuation_fresh h p (read_block lines) Hprev)
      as [Hp Hothers].
    destruct (decide (r = p)) as [->|Hne].
    + rewrite Hp. apply extends_absorb.
    + rewrite Hothers by done. apply extends_refl.
Qed.

(** X7: the generator never takes anything back: when it has gone
    through more blocks, every dictionary that was on the heap has the
    session and the authors it had, and its title, affiliations and
    abstract start with what they were. *)
Theorem extract_only_appends_to_yielded_records (bs : list block) (h h' : heap)
    (out out' : list ref) (prev prev' : option ref) :
  (∀ p, prev = Some p → p < length h) →
  extract_blocks collect (h, out, prev) bs = Some (h', out', prev') →
  ∀ r, r < length h → extends (deref h r) (deref h' r).
Proof.
  revert h out prev.
  induction bs as [|b bs IH]; intros h out prev Hprev E r Hr.
  - injection E as <- _ _. apply extends_refl.
  - cbn [extract_blocks] in E.
    destruct (extract_block collect (h, out, prev) b)
      as [[[h1 out1] prev1]|] eqn:E1; [|done].
    destruct (extract_block_extends h h1 out out1 prev prev1 b Hprev E1)
      as (Hlen & Hprev1 & Hext).
    apply (extends_trans _ (deref h1 r)); [by apply Hext|].
    apply (IH h1 out1 prev1 Hprev1 E). lia.
Qed.

Lemma extract_only_appends_to_yielded_records_witness :
  extends (deref [talk_a] 0)
          (deref [Article ["Dr. X"] [] "Session 1" "Talk AU" EmptyString;
                  Article [] [] EmptyString "U" EmptyString] 0).
Proof.
  apply (extract_only_appends_to_yielded_records [title_block] [talk_a] _
           [0] [0; 0] (Some 0) (Some 0)).
  - intros p [= <-]. simpl. lia.
  - by vm_compute.
  - simpl. lia.
Defined.

(** ** The merger: what it returns and what it leaves alone *)

Lemma length_merge_loop (blocks : list ref) (h : heap) (st : merge_state) :
  length (merge_loop blocks h st).1 = length h.
Proof.
  revert h st. induction blocks as [|b blocks IH]; intros h st; [done|].
  rewrite merge_loop_cons, IH. apply length_merge_block.
Qed.

Lemma merge_loop_opened (blocks : list ref) (h : heap) (merged : list ref)
    (cb : ref) :
  opened (merge_loop blocks h (merged, Some cb)).2
  = merged ++ cb :: filter (λ r, session (deref h r) ≠ EmptyString) blocks.
Proof.
  revert h merged cb.
  induction blocks as [|b blocks IH]; intros h merged cb; [done|].
  rewrite merge_loop_cons.
  destruct (truthy_str (session (deref h b))) eqn:Hs.
  - apply truthy_str_true in Hs. rewrite merge_block_open by done.
    cbn [fst snd]. rewrite IH, filter_cons_True by done.
    by rewrite <- app_assoc.
  - pose proof (merge_block_session h (merged, Some cb) b) as Hsess.
    simpl in Hsess |- *. rewrite Hs in Hsess |- *. simpl in Hsess |- *.
    rewrite IH. apply truthy_str_false in Hs.
    rewrite filter_cons_False by (by intros H; apply H).
    f_equal. f_equal. apply list_filter_iff. intros r. by rewrite Hsess.
Qed.

(** X8: for every input, shared dictionaries included, the merger returns
    the first reference of the input and, in order, every later reference
    whose record has a session; it puts no dictionary on the heap. *)
Theorem merge_returns_first_and_session_records (h : heap)
    (blocks : list ref) :
  ∃ h',
    merge_information_blocks (iter_list blocks) h
    = Some (h', block_openers h blocks)
    ∧ length h' = length h.
Proof.
  rewrite merge_information_blocks_list. eexists. split.
  - f_equal. f_equal. destruct blocks as [|b blocks]; [done|].
    rewrite merge_loop_cons. simpl. by rewrite merge_loop_opened.
  - apply length_merge_loop.
Qed.

Lemma extends_update (h : heap) (p r : ref) (f : article → article) :
  (∀ a, extends a (f a)) → extends (deref h r) (deref (update h p f) r).
Proof.
  intros Hf. destruct (decide (p = r)) as [<-|Hne].
  - destruct (decide (p < length h)) as [Hlt|Hge].
    + rewrite deref_update_eq by done. apply Hf.
    + unfold update. rewrite list_insert_ge by lia. apply extends_refl.
  - rewrite deref_update_ne by done. apply extends_refl.
Qed.

Lemma extends_set_title (a : article) (s : string) :
  extends a (set_title (title a +:+ s) a).
Proof.
  repeat split; simpl; [by eexists|exists []|exists EmptyString].
  - by rewrite app_nil_r.
  - by rewrite string_app_nil_r.
Qed.

Lemma extends_set_affiliations (a : article) (l : list string) :
  extends a (set_affiliations (affiliations a ++ l) a).
Proof.
  repeat split; simpl; [exists EmptyString|by eexists|exists EmptyString];
    by rewrite string_app_nil_r.
Qed.

Lemma extends_set_abstract (a : article) (s : string) :
  extends a (set_abstract (abstract a +:+ s) a).
Proof.
  repeat split; simpl; [exists EmptyString|exists []|by eexists].
  - by rewrite string_app_nil_r.
  - by rewrite app_nil_r.
Qed.

Lemma merge_block_extends (h : heap) (st : merge_state) (b r : ref) :
  extends (deref h r) (deref (merge_block h st b).1 r).
Proof.
  destruct st as [merged [cb|]]; simpl; [|apply extends_refl].
  destruct (truthy_str _); simpl; [apply extends_refl|].
  eapply extends_trans; [|apply extends_update; intros a;
                           apply extends_set_abstract].
  eapply extends_trans; [|apply extends_update; intros a;
                           apply extends_set_affiliations].
  apply extends_update. intros a. apply extends_set_title.
Qed.

Lemma merge_block_frame (h : heap) (st : merge_state) (b r : ref) :
  r ∉ opened st → deref (merge_block h st b).1 r = deref h r.
Proof.
  destruct st as [merged [cb|]]; unfold opened; simpl; [|done].
  intros Hr. destruct (truthy_str _); simpl; [done|].
  rewrite !deref_update_ne; [done|..];
    intros ->; apply Hr; apply elem_of_app; right; by left.
Qed.

Lemma merge_block_opened_mono (h : heap) (st : merge_state) (b x : ref) :
  x ∈ opened st → x ∈ opened (merge_block h st b).2.
Proof.
  destruct st as [merged [cb|]]; unfold opened; simpl.
  - destruct (truthy_str _); simpl; [|done].
    rewrite !elem_of_app, !list_elem_of_singleton. tauto.
  - rewrite app_nil_r. intros Hx. apply elem_of_app. by left.
Qed.

Lemma merge_loop_extends_frame (blocks : list ref) (h : heap)
    (st : merge_state) (r : ref) :
  extends (deref h r) (deref (merge_loop blocks h st).1 r)
  ∧ (r ∉ opened (merge_loop blocks h st).2 →
     (r ∉ opened st) ∧ deref (merge_loop blocks h st).1 r = deref h r).
Proof.
  revert h st. induction blocks as [|b blocks IH]; intros h st.
  - split; [apply extends_refl|done].
  - rewrite merge_loop_cons.
    destruct (IH (merge_block h st b).1 (merge_block h st b).2) as [Hext Hfr].
    split.
    + eapply extends_trans; [apply merge_block_extends|exact Hext].
    + intros Hr. destruct (Hfr Hr) as [Hr1 Heq].
      assert (r ∉ opened st) as Hr0.
      { intros Hin. apply Hr1. by apply merge_block_opened_mono. }
      split; [done|]. rewrite Heq. by apply merge_block_frame.
Qed.

(** X9: the merger only appends: after it, every dictionary has the
    session and authors it had and a title, affiliations and abstract that
    start with what they were; a dictionary that is not returned is left
    exactly as it was. *)
Theorem merge_only_appends_to_returned_records (h : heap)
    (blocks : list ref) :
  ∃ h' out,
    merge_information_blocks (iter_list blocks) h = Some (h', out)
    ∧ ∀ r, extends (deref h r) (deref h' r)
           ∧ (r ∉ out → deref h' r = deref h r).
Proof.
  rewrite merge_information_blocks_list. eexists _, _.
  split; [reflexivity|]. intros r.
  destruct (merge_loop_extends_frame blocks h ([], None) r) as [Hext Hfr].
  split; [exact Hext|]. intros Hr. by destruct (Hfr Hr).
Qed.

Lemma merge_loop_sessions_heap (blocks : list ref) (h : heap)
    (merged : list ref) (cb : ref) :
  Forall (λ r, session (deref h r) ≠ EmptyString) blocks →
  (merge_loop blocks h (merged, Some cb)).1 = h.
Proof.
  intros Hall. revert merged cb.
  induction Hall as [|b blocks Hb _ IH]; intros merged cb; [done|].
  rewrite merge_loop_cons, merge_block_open by done. apply IH.
Qed.

Lemma filter_Forall {A} (P : A → Prop) `{∀ x, Decision (P x)} (l : list A) :
  Forall P l → filter P l = l.
Proof.
  induction 1 as [|x l Hx _ IH]; [done|].
  by rewrite filter_cons_True, IH.
Qed.

(** X10: merging what the merger returned changes nothing: the same list
    comes back and the heap stays as it is. *)
Theorem merge_of_merged_is_identity (h : heap) (blocks : list ref) :
  ∃ h' out,
    merge_information_blocks (iter_list blocks) h = Some (h', out)
    ∧ merge_information_blocks (iter_list out) h' = Some (h', out).
Proof.
  rewrite merge_information_blocks_list.
  set (h' := (merge_loop blocks h ([], None)).1).
  set (out := opened (merge_loop blocks h ([], None)).2).
  exists h', out. split; [done|].
  assert (out = block_openers h blocks) as Hout.
  { unfold out. destruct blocks as [|b blocks]; [done|].
    rewrite merge_loop_cons. simpl. by rewrite merge_loop_opened. }
  assert (Forall (λ r, session (deref h' r) ≠ EmptyString) (tail out)) as Hs.
  { rewrite Hout. destruct blocks as [|b blocks]; [constructor|]. simpl.
    apply Forall_forall. intros r [Hr _]%list_elem_of_filter.
    unfold h'. by rewrite merge_loop_session. }
  rewrite merge_information_blocks_list.
  destruct out as [|b rest]; [done|]. simpl in Hs.
  rewrite merge_loop_cons. simpl.
  rewrite merge_loop_sessions_heap by done.
  rewrite merge_loop_opened. by rewrite (filter_Forall _ rest Hs).
Qed.

(** ** The merger fed by the generator: a talk and its continuations *)

Lemma replicate_snoc {A} (n : nat) (x : A) :
  replicate n x ++ [x] = replicate (S n) x.
Proof. induction n as [|n IH]; [done|]. simpl. by rewrite IH. Qed.

Lemma extract_single_page {T} (body : loop_body T) (pg : page) (h : heap)
    (t : T) :
  extract_information_from_pdf [pg] 1 T body h t
  = match extract_blocks body (h, t, None) pg with
    | Some (h', t', _) => Some (h', t')
    | None => None
    end.
Proof.
  unfold extract_information_from_pdf. change (1 - 1)%Z with 0%Z.
  rewrite (extract_pages_range body [pg] 1 0) by (unfold page_count; simpl; lia).
  simpl. by rewrite app_nil_r.
Qed.

Lemma extract_first_block {T} (body : loop_body T) (h : heap) (t : T)
    (lines : list line) :
  has_content (read_block lines) = true →
  extract_block body (h, t, None) (text_block lines)
  = yield_article body (h ++ [read_block lines]) t (length h).
Proof.
  intros Hc. unfold extract_block, text_block, alloc. simpl.
  pose proof (deref_alloc_new h (read_block lines)) as Hnew.
  unfold alloc in Hnew. simpl in Hnew. rewrite Hnew, Hc.
  by destruct (negb _).
Qed.

Lemma session_has_content (a : article) :
  session a ≠ EmptyString → has_content a = true.
Proof. intros H%truthy_str_true. unfold has_content. by rewrite H. Qed.

Lemma continuations_after_talk (conts : list (list line)) :
  ∀ (h : heap) (merged : list ref),
    0 < length h → session (deref h 0) ≠ EmptyString →
    Forall (λ ls, session (read_block ls) = EmptyString
                  ∧ has_content (read_block ls) = true) conts →
    ∃ h',
      extract_blocks (T:=merge_state) merge_block
        (h, (merged, Some 0), Some 0) (text_block <$> conts)
      = Some (h', (merged ++ replicate (length conts) 0, Some 0), Some 0)
      ∧ deref h' 0 = merged_record (deref h 0) (read_block <$> conts).
Proof.
  induction conts as [|ls conts IH]; intros h merged Hlen Hsess Hconts.
  - exists h. simpl. by rewrite app_nil_r, merged_record_nil.
  - apply Forall_cons in Hconts as [[Hs Hc] Hconts].
    assert (extract_block (T:=merge_state) merge_block
              (h, (merged, Some 0), Some 0) (text_block ls)
            = yield_article merge_block
                (merge_continuation (h ++ [read_block ls]) 0 (length h))
                (merged, Some 0) 0) as E.
    { by destruct (extract_block_continuation merge_block h (merged, Some 0) 0
                     (text_block ls) ls eq_refl eq_refl Hs Hc). }
    destruct (merge_continuation_fresh h 0 (read_block ls) Hlen)
      as [Hmerged _].
    set (h2 := merge_continuation (h ++ [read_block ls]) 0 (length h)) in *.
    assert (session (deref h2 0) ≠ EmptyString) as Hsess2.
    { by rewrite Hmerged. }
    destruct (IH h2 (merged ++ [0])) as (h' & E' & Hrec); [|done..|].
    { unfold h2. rewrite length_merge_continuation, length_app. simpl. lia. }
    exists h'. rewrite fmap_cons. cbn [extract_blocks]. rewrite E.
    unfold yield_article. rewrite merge_block_open by done.
    cbv beta iota. split.
    + refine (eq_trans E' _). by rewrite <- app_assoc.
    + rewrite Hrec, Hmerged, fmap_cons. by rewrite merged_record_cons.
Qed.

(** X11: a text block with a session followed on its page by text blocks
    with content and without session: the merger fed by the generator
    returns the dictionary of the first block once for itself and once
    more for every continuation, and that dictionary is the first block
    merged with its continuations. *)
Theorem merge_extracted_talk_repeats_per_continuation (lines : list line)
    (conts : list (list line)) :
  session (read_block lines) ≠ EmptyString →
  Forall (λ ls, session (read_block ls) = EmptyString
                ∧ has_content (read_block ls) = true) conts →
  ∃ h',
    merge_information_blocks
      (extract_information_from_pdf
         [text_block lines :: (text_block <$> conts)] 1) []
    = Some (h', replicate (S (length conts)) 0)
    ∧ deref h' 0 = merged_record (read_block lines) (read_block <$> conts).
Proof.
  intros Hsess Hconts.
  destruct (continuations_after_talk conts [read_block lines] [])
    as (h' & E & Hrec); [simpl; lia|done|done|].
  exists h'. unfold merge_information_blocks.
  rewrite extract_single_page. cbn [extract_blocks].
  rewrite extract_first_block by (by apply session_has_content).
  change (yield_article merge_block ([] ++ [read_block lines]) ([], None)
            (length []))
    with (Some ([read_block lines], (@nil ref, Some 0), Some 0)
          : option (gen_state (T:=merge_state))).
  cbv beta iota.
  match goal with
  | |- context [extract_blocks ?body ?st ?bs] =>
      replace (extract_blocks body st bs)
        with (Some (h', ([] ++ replicate (length conts) 0, Some 0), Some 0)
              : option (gen_state (T:=merge_state)))
        by (symmetry; exact E)
  end.
  split; [|exact Hrec]. simpl. by rewrite replicate_snoc.
Qed.

Lemma merge_extracted_talk_repeats_per_continuation_witness :
  ∃ h',
    merge_information_blocks
      (extract_information_from_pdf
         [text_block
            [Line [Span "TimesNewRomanPS-BoldItal" 9.5 "S";
                   Span "TimesNewRomanPS-BoldMT" 9 "T"]]
          :: (text_block <$> [[Line [Span "TimesNewRomanPS-BoldMT" 9 "U"]];
                              [Line [Span "TimesNewRomanPS-BoldMT" 9 "V"]]])]
         1) []
    = Some (h', replicate 3 0)
    ∧ deref h' 0
      = merged_record
          (read_block [Line [Span "TimesNewRomanPS-BoldItal" 9.5 "S";
                             Span "TimesNewRomanPS-BoldMT" 9 "T"]])
          (read_block <$> [[Line [Span "TimesNewRomanPS-BoldMT" 9 "U"]];
                           [Line [Span "TimesNewRomanPS-BoldMT" 9 "V"]]]).
Proof.
  apply (merge_extracted_talk_repeats_per_continuation
           [Line [Span "TimesNewRomanPS-BoldItal" 9.5 "S";
                  Span "TimesNewRomanPS-BoldMT" 9 "T"]]
           [[Line [Span "TimesNewRomanPS-BoldMT" 9 "U"]];
            [Line [Span "TimesNewRomanPS-BoldMT" 9 "V"]]]).
  - by vm_compute.
  - repeat constructor; by vm_compute.
Defined.

Lemma merge_block_self (h : heap) (merged : list ref) (cb : ref) :
  cb < length h → session (deref h cb) = EmptyString →
  ∃ h1, merge_block h (merged, Some cb) cb = (h1, (merged, Some cb))
        ∧ length h1 = length h
        ∧ deref h1 cb = absorb (deref h cb) (deref h cb).
Proof.
  intros Hcb Hs. simpl. rewrite Hs. simpl.
  eexists. split; [reflexivity|]. split; [by rewrite !length_update|].
  by rewrite !deref_update_eq by (by rewrite ?length_update).
Qed.

Lemma continuations_after_sessionless (conts : list (list line)) :
  ∀ (h : heap),
    0 < length h → session (deref h 0) = EmptyString →
    Forall (λ ls, session (read_block ls) = EmptyString
                  ∧ has_content (read_block ls) = true) conts →
    ∃ h',
      extract_blocks (T:=merge_state) merge_block
        (h, ([], Some 0), Some 0) (text_block <$> conts)
      = Some (h', ([], Some 0), Some 0)
      ∧ deref h' 0
        = fold_left absorb_twice (read_block <$> conts) (deref h 0).
Proof.
  induction conts as [|ls conts IH]; intros h Hlen Hsess Hconts.
  - by exists h.
  - apply Forall_cons in Hconts as [[Hs Hc] Hconts].
    assert (extract_block (T:=merge_state) merge_block
              (h, ([], Some 0), Some 0) (text_block ls)
            = yield_article merge_block
                (merge_continuation (h ++ [read_block ls]) 0 (length h))
                ([], Some 0) 0) as E.
    { by destruct (extract_block_continuation merge_block h ([], Some 0) 0
                     (text_block ls) ls eq_refl eq_refl Hs Hc). }
    destruct (merge_continuation_fresh h 0 (read_block ls) Hlen)
      as [Hmerged _].
    set (h2 := merge_continuation (h ++ [read_block ls]) 0 (length h)) in *.
    assert (0 < length h2) as Hlen2.
    { unfold h2. rewrite length_merge_continuation, length_app. simpl. lia. }
    destruct (merge_block_self h2 [] 0 Hlen2) as (h3 & E3 & Hlen3 & Hself).
    { by rewrite Hmerged. }
    destruct (IH h3) as (h' & E' & Hrec); [lia| |done|].
    { rewrite Hself, Hmerged. simpl. by rewrite Hsess. }
    exists h'. rewrite fmap_cons. cbn [extract_blocks]. rewrite E.
    unfold yield_article. rewrite E3. cbv beta iota. split; [exact E'|].
    by rewrite Hrec, Hself, Hmerged.
Qed.

(** X12: when the first block of the scan has content but no session,
    every continuation that follows is appended to its dictionary twice
    over: the generator appends the continuation and yields the dictionary
    again, and the merger, for which that dictionary is the open block,
    appends the dictionary to itself.  One record comes back. *)
Theorem merge_extracted_sessionless_start_doubles (lines : list line)
    (conts : list (list line)) :
  session (read_block lines) = EmptyString →
  has_content (read_block lines) = true →
  Forall (λ ls, session (read_block ls) = EmptyString
                ∧ has_content (read_block ls) = true) conts →
  ∃ h',
    merge_information_blocks
      (extract_information_from_pdf
         [text_block lines :: (text_block <$> conts)] 1) []
    = Some (h', [0])
    ∧ deref h' 0
      = fold_left absorb_twice (read_block <$> conts) (read_block lines).
Proof.
  intros Hsess Hcont Hconts.
  destruct (continuations_after_sessionless conts [read_block lines])
    as (h' & E & Hrec); [simpl; lia|done|done|].
  exists h'. unfold merge_information_blocks.
  rewrite extract_single_page. cbn [extract_blocks].
  rewrite extract_first_block by done.
  change (yield_article merge_block ([] ++ [read_block lines]) ([], None)
            (length []))
    with (Some ([read_block lines], (@nil ref, Some 0), Some 0)
          : option (gen_state (T:=merge_state))).
  cbv beta iota.
  match goal with
  | |- context [extract_blocks ?body ?st ?bs] =>
      replace (extract_blocks body st bs)
        with (Some (h', (@nil ref, Some 0), Some 0)
              : option (gen_state (T:=merge_state)))
        by (symmetry; exact E)
  end.
  split; [done|exact Hrec].
Qed.

Lemma merge_extracted_sessionless_start_doubles_witness :
  ∃ h',
    merge_information_blocks
      (extract_information_from_pdf
         [text_block [Line [Span "TimesNewRomanPS-BoldMT" 9 "T1"]]
          :: (text_block <$> [[Line [Span "TimesNewRomanPS-BoldMT" 9 "T2"]]])]
         1) []
    = Some (h', [0])
    ∧ deref h' 0
      = fold_left absorb_twice
          (read_block <$> [[Line [Span "TimesNewRomanPS-BoldMT" 9 "T2"]]])
          (read_block [Line [Span "TimesNewRomanPS-BoldMT" 9 "T1"]]).
Proof.
  apply (merge_extracted_sessionless_start_doubles
           [Line [Span "TimesNewRomanPS-BoldMT" 9 "T1"]]
           [[Line [Span "TimesNewRomanPS-BoldMT" 9 "T2"]]]).
  - by vm_compute.
  - by vm_compute.
  - repeat constructor; by vm_compute.
Defined.

(** The title of that record: T1T2 twice. *)
Example sessionless_start_title :
  title (fold_left absorb_twice
           (read_block <$> [[Line [Span "TimesNewRomanPS-BoldMT" 9 "T2"]]])
           (read_block [Line [Span "TimesNewRomanPS-BoldMT" 9 "T1"]]))
  = "T1T2T1T2".
Proof. by vm_compute. Qed.

(** ** The writer: how many rows, and which *)

Lemma save_author_count (m0 : nat) (session title abstract : string)
    (affiliations : list string) (st st' : write_state) (author : string) :
  max_row st.2 = m0 + size st.1 →
  save_author session title abstract affiliations st author = Some st' →
  max_row st'.2 = m0 + size st'.1 ∧ size st'.1 ≤ S (size st.1).
Proof.
  destruct st as [ex sh]. intros Hcount.
  rewrite save_author_unfold. case_bool_decide as Hseen.
  - intros [= <-]. split; [done|lia].
  - destruct (write_row _ _ _ _ _ _ _) as [sh'|] eqn:E; [|done].
    intros [= <-]. apply write_row_spec in E as (Hmax & _).
    cbn [fst snd] in *. rewrite Hmax.
    rewrite size_union by (by apply disjoint_singleton_l).
    rewrite size_singleton. lia.
Qed.

Lemma save_authors_count (m0 : nat) (session title abstract : string)
    (affiliations : list string) (l : list string) (st st' : write_state) :
  max_row st.2 = m0 + size st.1 →
  for_each (save_author session title abstract affiliations) l st = Some st' →
  max_row st'.2 = m0 + size st'.1 ∧ size st'.1 ≤ size st.1 + length l.
Proof.
  revert st. induction l as [|a l IH]; intros st Hcount; simpl.
  - intros [= <-]. split; [done|lia].
  - destruct (save_author _ _ _ _ st a) as [st1|] eqn:E; [|done].
    destruct (save_author_count m0 _ _ _ _ _ _ _ Hcount E)
      as [Hcount1 Hsize1].
    intros [Hcount' Hsize']%(IH _ Hcount1). split; [done|lia].
Qed.

Lemma save_block_count (m0 : nat) (st st' : write_state) (block : article) :
  max_row st.2 = m0 + size st.1 →
  save_block st block = Some st' →
  max_row st'.2 = m0 + size st'.1
  ∧ size st'.1 ≤ size st.1 + length (authors block).
Proof.
  intros Hcount. unfold save_block.
  destruct (already_saved st.1 block).
  - intros [= <-]. split; [done|lia].
  - by apply save_authors_count.
Qed.

Lemma save_blocks_count (m0 : nat) (blocks : list article)
    (st st' : write_state) :
  max_row st.2 = m0 + size st.1 →
  for_each save_block blocks st = Some st' →
  max_row st'.2 = m0 + size st'.1
  ∧ size st'.1 ≤ size st.1 + length (all_authors blocks).
Proof.
  revert st. induction blocks as [|b blocks IH]; intros st Hcount.
  - intros [= <-]. split; [done|]. unfold all_authors. simpl. lia.
  - cbn [for_each].
    destruct (save_block st b) as [st1|] eqn:E; [|done].
    destruct (save_block_count m0 _ _ _ Hcount E) as [Hcount1 Hsize1].
    intros [Hcount' Hsize']%(IH _ Hcount1).
    split; [done|]. unfold all_authors in *. rewrite fmap_cons.
    change (mjoin (authors b :: (authors <$> blocks)))
      with (authors b ++ mjoin (authors <$> blocks)).
    rewrite length_app. lia.
Qed.

(** X13: a call of the writer either raises at a cell assignment, and
    then the file is left as it was loaded, without a row for the pairs
    recorded up to there; or it comes through, and then the file has
    exactly one more row for every pair recorded in [existing_authors],
    never more rows than there are authors in the blocks. *)
Theorem save_appends_one_row_per_recorded_pair (blocks : list article)
    (file : option sheet) :
  match for_each save_block blocks (∅, loaded file) with
  | Some (existing_authors, sheet) =>
      save_to_excel_file blocks file = sheet
      ∧ max_row sheet = max_row (loaded file) + size existing_authors
      ∧ size existing_authors ≤ length (all_authors blocks)
  | None => save_to_excel_file blocks file = loaded file
  end.
Proof.
  unfold save_to_excel_file, written_workbook.
  destruct (for_each save_block blocks (∅, loaded file)) as [[ex sh]|] eqn:E;
    [|done].
  split; [done|].
  assert (max_row ((∅, loaded file) : write_state).2
          = max_row (loaded file)
            + size ((∅, loaded file) : write_state).1) as Hstart.
  { cbn [fst snd]. rewrite size_empty. lia. }
  destruct (save_blocks_count _ blocks _ _ Hstart E) as [Hcount Hsize].
  split; [exact Hcount|]. cbn [fst snd] in Hsize.
  rewrite size_empty in Hsize. exact Hsize.
Qed.

(** A name with a control character: the pair is recorded, the
    assignment raises, and the file has no row for it. *)
Example control_name_leaves_no_row :
  let blocks := [Article [control_name] [] "S" EmptyString EmptyString] in
  for_each save_block blocks (∅, loaded None) = None
  ∧ save_to_excel_file blocks None = loaded None.
Proof. by vm_compute. Qed.

Lemma save_block_no_authors (st : write_state) (block : article) :
  authors block = [] → save_block st block = Some st.
Proof.
  intros Hno. unfold save_block. rewrite Hno.
  by destruct (already_saved st.1 block).
Qed.

(** X15: blocks without authors leave no row, whatever else they hold:
    the writer gives back the sheet it started from. *)
Theorem save_without_authors_writes_nothing (blocks : list article)
    (file : option sheet) :
  Forall (λ b, authors b = []) blocks →
  save_to_excel_file blocks file = loaded file.
Proof.
  intros Hno. unfold save_to_excel_file, written_workbook.
  assert (∀ st, for_each save_block blocks st = Some st) as ->; [|done].
  induction Hno as [|b blocks Hb _ IH]; intros st; [done|].
  cbn [for_each]. by rewrite save_block_no_authors.
Qed.

Lemma save_without_authors_writes_nothing_witness :
  save_to_excel_file
    [Article [] ["Uni A"] "Session 1" "Talk A" "Abstract of talk A"] None
  = loaded None.
Proof.
  apply (save_without_authors_writes_nothing
           [Article [] ["Uni A"] "Session 1" "Talk A" "Abstract of talk A"]
           None).
  by repeat constructor.
Defined.

Lemma write_row_other_cells (sh sh' : sheet) (row i : nat) (author : string)
    (affiliations : list string) (session title abstract : string) :
  write_row sh row author affiliations session title abstract = Some sh' →
  i ≠ row → row_cells sh' i = row_cells sh i.
Proof.
  intros (_ & _ & Hother)%write_row_spec Hi.
  unfold row_cells. apply list_fmap_ext. intros _ c _.
  unfold cell_value. by rewrite Hother.
Qed.

Lemma save_author_rows_from (m0 : nat) (S : article → Prop) (b : article)
    (st st' : write_state) (author : string) :
  S b → author ∈ authors b → rows_from m0 S st.2 →
  save_author (session b) (title b) (abstract b) (affiliations b) st author
  = Some st' →
  rows_from m0 S st'.2.
Proof.
  destruct st as [ex sh]. intros HS Ha [Hle Hrows].
  rewrite save_author_unfold. case_bool_decide.
  { intros [= <-]. by split. }
  destruct (write_row _ _ _ _ _ _ _) as [sh'|] eqn:E; [|done].
  intros [= <-]. cbn [fst snd] in *.
  destruct (write_row_spec _ _ _ _ _ _ _ _ E) as (Hmax & Hcells & _).
  split; [lia|]. rewrite Hmax. intros i Hi.
  destruct (decide (i = max_row sh + 1)) as [->|Hne].
  - exists b, author. split; [done|]. split; [done|]. exact Hcells.
  - rewrite (write_row_other_cells _ _ _ _ _ _ _ _ _ E) by done.
    apply Hrows. lia.
Qed.

Lemma save_block_rows_from (m0 : nat) (S : article → Prop) (b : article)
    (st st' : write_state) :
  S b → rows_from m0 S st.2 → save_block st b = Some st' →
  rows_from m0 S st'.2.
Proof.
  intros HS Hrows. unfold save_block.
  destruct (already_saved st.1 b); [by intros [= <-]|].
  apply (for_each_inv (λ s, rows_from m0 S s.2)); [|done].
  intros a s s' Ha. by apply save_author_rows_from.
Qed.

Lemma save_blocks_rows_from (m0 : nat) (S : article → Prop)
    (blocks : list article) (st st' : write_state) :
  Forall S blocks → rows_from m0 S st.2 →
  for_each save_block blocks st = Some st' →
  rows_from m0 S st'.2.
Proof.
  intros HS Hrows.
  apply (for_each_inv (λ s, rows_from m0 S s.2)); [|done].
  intros b s s' Hb. apply save_block_rows_from.
  by apply (proj1 (Forall_forall _ _) HS).
Qed.

(** X16: every row a call of the writer appends is the row of one author
    of one of its blocks, each value cut to its first 32767 characters:
    the author without leading comma, the block's affiliations joined by
    comma and space, its session, an empty location, its title and its
    abstract, in columns A to F. *)
Theorem save_rows_come_from_blocks (blocks : list article)
    (file : option sheet) (i : nat) :
  max_row (loaded file) < i ≤ max_row (save_to_excel_file blocks file) →
  ∃ b a, b ∈ blocks ∧ a ∈ authors b
         ∧ row_cells (save_to_excel_file blocks file) i = row_of b a.
Proof.
  destruct (save_to_excel_file_cases blocks file)
    as [(_ & _ & ->)|(st & E & _ & ->)]; [lia|].
  destruct (save_blocks_rows_from (max_row (loaded file)) (λ b, b ∈ blocks)
              blocks (∅, loaded file) st) as [_ Hrows].
  - by apply Forall_forall.
  - split; [done|]. cbn [fst snd]. intros j Hj. lia.
  - exact E.
  - exact (Hrows i).
Qed.

Lemma save_rows_come_from_blocks_witness :
  ∃ b a, b ∈ shared_author_blocks ∧ a ∈ authors b
         ∧ row_cells (save_to_excel_file shared_author_blocks None) 3
           = row_of b a.
Proof.
  apply (save_rows_come_from_blocks shared_author_blocks None 3).
  assert (max_row (loaded None) = 1) as -> by (by vm_compute).
  assert (max_row (save_to_excel_file shared_author_blocks None) = 4) as ->
    by (by vm_compute).
  lia.
Defined.

(** The row at 3 is the row of the second author of the first block. *)
Example shared_author_row_3 :
  row_cells (save_to_excel_file shared_author_blocks None) 3
  = [Some "Dr. Y"; Some "Uni A"; Some "Session 1"; Some EmptyString;
     Some "Talk A"; Some EmptyString].
Proof. by vm_compute. Qed.

(** ** The header row after the program *)

Lemma written_keeps_row_1 (blocks : list article) (file : option sheet)
    (sh : sheet) (c : nat) :
  written_workbook blocks file = Some sh →
  sh !! (1, c) = loaded file !! (1, c).
Proof.
  intros E. destruct (save_frame blocks file) as [_ Hframe].
  unfold save_to_excel_file in Hframe. rewrite E in Hframe.
  apply Hframe. apply max_row_ge_1.
Qed.

Lemma fill_header_row_lookup (sh : sheet) (c : nat) :
  1 ≤ c ≤ 6 →
  fill_header_row sh !! (1, c)
  = Some (Cell (sh !! (1, c) ≫= value)
               (Some (create_colored_header_style HEADER_BACKGROUND_COLOR))).
Proof.
  intros Hc. unfold fill_header_row, set_fill. cbn [fold_left seq].
  assert (c = 1 ∨ c = 2 ∨ c = 3 ∨ c = 4 ∨ c = 5 ∨ c = 6)
    as [->|[->|[->|[->|[->| ->]]]]] by lia;
    repeat (rewrite lookup_insert_eq
            || rewrite lookup_insert_ne by (intros [= ?]; lia));
    done.
Qed.

(** X17: when the program comes through, each of the six cells A1 to F1
    has the fill colour 749BFF and the value it had in the file the
    program found, or the header of its column when there was no file:
    neither call of the writer touches row 1. *)
Theorem main_fills_header_cells (start_page : Z) (book : pdf)
    (result : option sheet) (sh : sheet) (c : nat) :
  main_from start_page book result = Some sh →
  1 ≤ c ≤ 6 →
  sh !! (1, c)
  = Some (Cell (loaded result !! (1, c) ≫= value) (Some "749BFF")).
Proof.
  unfold main_from.
  destruct (merge_information_blocks _ []) as [[h merged]|]; [|done].
  destruct (written_workbook (deref h <$> merged) result) as [file|] eqn:E1;
    [|done].
  intros E2 Hc.
  rewrite (written_keeps_row_1 _ _ _ _ E2). cbn [loaded].
  match goal with
  | |- ?x !! _ = _ => change x with (fill_header_row file)
  end.
  rewrite fill_header_row_lookup by done.
  by rewrite (written_keeps_row_1 _ _ _ _ E1).
Qed.

Lemma main_fills_header_cells_witness :
  main_from 1 synthetic_pdf None
  = Some (save_to_excel_file [talk_a]
            (Some (fill_header_row (save_to_excel_file [talk_a] None))))
  ∧ save_to_excel_file [talk_a]
      (Some (fill_header_row (save_to_excel_file [talk_a] None))) !! (1, 5)
    = Some (Cell (loaded None !! (1, 5) ≫= value) (Some "749BFF")).
Proof.
  assert (main_from 1 synthetic_pdf None
          = Some (save_to_excel_file [talk_a]
                    (Some (fill_header_row
                             (save_to_excel_file [talk_a] None))))) as E
    by (by vm_compute).
  split; [exact E|].
  apply (main_fills_header_cells 1 synthetic_pdf None _ 5 E). lia.
Defined.

(** ** The writer: a record that comes twice *)

Lemma save_author_mono (session title abstract : string)
    (affiliations : list string) (st st' : write_state) (author : string)
    (x : list string) :
  save_author session title abstract affiliations st author = Some st' →
  x ∈ st.1 → x ∈ st'.1.
Proof.
  destruct st as [ex sh]. rewrite save_author_unfold.
  case_bool_decide; [by intros [= <-]|].
  destruct (write_row _ _ _ _ _ _ _) as [sh'|]; [|done].
  intros [= <-] Hx. apply elem_of_union. by right.
Qed.

Lemma save_author_records (session title abstract : string)
    (affiliations : list string) (st st' : write_state) (author : string) :
  save_author session title abstract affiliations st author = Some st' →
  [session; written_name author] ∈ st'.1.
Proof.
  destruct st as [ex sh]. rewrite save_author_unfold.
  case_bool_decide; [by intros [= <-]|].
  destruct (write_row _ _ _ _ _ _ _) as [sh'|]; [|done].
  intros [= <-]. apply elem_of_union. left. by apply elem_of_singleton.
Qed.

Lemma save_authors_mono (session title abstract : string)
    (affiliations : list string) (l : list string) (st st' : write_state)
    (x : list string) :
  for_each (save_author session title abstract affiliations) l st = Some st' →
  x ∈ st.1 → x ∈ st'.1.
Proof.
  intros E Hx. revert E.
  apply (for_each_inv (λ s, x ∈ s.1)); [|done].
  intros a s s' _ Hs Ea. by apply (save_author_mono _ _ _ _ _ _ _ _ Ea).
Qed.

Lemma save_authors_records (session title abstract : string)
    (affiliations : list string) (l : list string) (st st' : write_state)
    (a : string) :
  for_each (save_author session title abstract affiliations) l st = Some st' →
  a ∈ l → [session; written_name a] ∈ st'.1.
Proof.
  revert st. induction l as [|a' l IH]; intros st E Ha.
  - by apply elem_of_nil in Ha.
  - cbn [for_each] in E.
    destruct (save_author _ _ _ _ st a') as [st1|] eqn:E1; [|done].
    apply elem_of_cons in Ha as [->|Ha].
    + apply (save_authors_mono _ _ _ _ _ _ _ _ E).
      by apply (save_author_records _ _ _ _ _ _ _ E1).
    + by apply (IH _ E).
Qed.

Lemma save_block_mono (st st' : write_state) (b : article)
    (x : list string) :
  save_block st b = Some st' → x ∈ st.1 → x ∈ st'.1.
Proof.
  unfold save_block. destruct (already_saved st.1 b); [by intros [= <-]|].
  apply save_authors_mono.
Qed.

Lemma save_blocks_mono (blocks : list article) (st st' : write_state)
    (x : list string) :
  for_each save_block blocks st = Some st' → x ∈ st.1 → x ∈ st'.1.
Proof.
  intros E Hx. revert E.
  apply (for_each_inv (λ s, x ∈ s.1)); [|done].
  intros b s s' _ Hs Eb. by apply (save_block_mono _ _ _ _ Eb).
Qed.

Lemma save_authors_seen (session title abstract : string)
    (affiliations : list string) (l : list string) (st : write_state) :
  (∀ a, a ∈ l → [session; written_name a] ∈ st.1) →
  for_each (save_author session title abstract affiliations) l st = Some st.
Proof.
  induction l as [|a l IH]; intros Hseen; [done|].
  cbn [for_each].
  assert (save_author session title abstract affiliations st a = Some st)
    as ->.
  { destruct st as [ex sh]. rewrite save_author_unfold.
    rewrite bool_decide_eq_true_2; [done|]. apply Hseen. by left. }
  apply IH. intros a' Ha'. apply Hseen. by right.
Qed.

(** A block that has been through the writer goes through it again
    without effect, and without a cell assigned, at any later point of
    the call. *)
Lemma save_block_again (st st1 st' : write_state) (b : article) :
  save_block st b = Some st1 →
  (∀ x, x ∈ st1.1 → x ∈ st'.1) →
  save_block st' b = Some st'.
Proof.
  intros E Hsub. unfold save_block in *.
  destruct (already_saved st'.1 b) eqn:E'; [done|].
  apply save_authors_seen. intros a Ha. apply Hsub.
  destruct (already_saved st.1 b) eqn:E0.
  - exfalso. injection E as <-. unfold already_saved in E0, E'.
    apply andb_true_iff in E0 as [Hs Hin%bool_decide_eq_true].
    rewrite Hs in E'. simpl in E'.
    apply bool_decide_eq_false in E'. apply E', Hsub. exact Hin.
  - by apply (save_authors_records _ _ _ _ _ _ _ _ E).
Qed.

(** X18: a record that comes a second time in the input of one call adds
    no row and changes nothing: the writer leaves the same file as for the
    input without the second occurrence. *)
Theorem save_repeated_record_adds_nothing (pre mid post : list article)
    (b : article) (file : option sheet) :
  save_to_excel_file (pre ++ b :: mid ++ b :: post) file
  = save_to_excel_file (pre ++ b :: mid ++ post) file.
Proof.
  unfold save_to_excel_file, written_workbook.
  rewrite !for_each_app.
  destruct (for_each save_block pre (∅, loaded file)) as [st|]; [|done].
  cbn [for_each].
  destruct (save_block st b) as [st1|] eqn:E1; [|done].
  rewrite !for_each_app.
  destruct (for_each save_block mid st1) as [st2|] eqn:E2; [|done].
  cbn [for_each].
  by rewrite (save_block_again st st1 st2 b E1)
    by (intros x Hx; by apply (save_blocks_mono _ _ _ _ E2)).
Qed.
